(** * Rate and disparity computations of the gifted identification dashboard

    Shallow embedding of the analytical functions of
    [integrated_gifted_dashboard_recommendations.py]:
    [_safe_rate], [selection_rate], [group_rates], [disparity_table], [pct].

    Numeric model.  A Python/numpy float is either [nan] or an exact
    rational; arithmetic is exact, every result is kept in lowest terms so
    that equal numbers are equal terms.  Rounding of binary64, infinities and
    signed zeros are outside this model; module [Binary64] repeats the rate
    computation on machine floats where rounding decides a statement.

    Frame model.  A [DataFrame] is the list of its rows; a column name is the
    projection that reads this column from a row, so a frame always has the
    columns that are asked of it (the script checks the required columns
    before it calls any of these functions). *)

From Stdlib Require Import String Ascii Bool Arith ZArith QArith Qround Qabs.
From Stdlib Require Import Lia Lqa Permutation Sorted DecimalString List.
From Stdlib Require OrderedTypeEx.
From Stdlib Require PrimFloat.
Import ListNotations.

Set Implicit Arguments.

(** ** Floats *)

Inductive float : Type :=
| nan
| Fin (q : Q).

Definition isnan (x : float) : bool :=
  match x with nan => true | Fin _ => false end.

(** [x + y], [x - y] on floats: [nan] is absorbing. *)
Definition fadd (x y : float) : float :=
  match x, y with
  | Fin a, Fin b => Fin (Qred (a + b))
  | _, _ => nan
  end.

Definition fsub (x y : float) : float :=
  match x, y with
  | Fin a, Fin b => Fin (Qred (a - b))
  | _, _ => nan
  end.

(** [x > y]; any comparison with [nan] is false. *)
Definition fgtb (x y : float) : bool :=
  match x, y with
  | Fin a, Fin b => negb (Qle_bool a b)
  | _, _ => false
  end.

(** Truth value of a float in a Python condition: only zero is false. *)
Definition truthy (x : float) : bool :=
  match x with
  | nan => true
  | Fin a => negb (Qeq_bool a 0)
  end.

(** Python's [n / d] on two floats; [None] is ZeroDivisionError. *)
Definition pydiv (n d : float) : option float :=
  match n, d with
  | Fin a, Fin b => if Qeq_bool b 0 then None else Some (Fin (Qred (a / b)))
  | Fin _, nan => Some nan
  | nan, Fin b => if Qeq_bool b 0 then None else Some nan
  | nan, nan => Some nan
  end.

(** Element of [series / scalar] in pandas.  Both uses in [disparity_table]
    are guarded by [scalar > 0]; a zero divisor, which numpy maps to an
    infinity or to [nan], is given [nan] here. *)
Definition fdiv (x y : float) : float :=
  match x, y with
  | Fin a, Fin b => if Qeq_bool b 0 then nan else Fin (Qred (a / b))
  | _, _ => nan
  end.

(** ** Cells, series and frames *)

(** A value of a group column: a category name, or [None] when missing. *)
Definition label : Type := option string.

(** A value of an outcome column, by what [astype(float)] does with it:
    - [Num q]: a number (or text that [float()] reads as this number);
    - [Null]: a missing value, [NaN] or [None], which becomes [nan];
    - [Text s]: text that [float()] rejects, such as "abc". *)
Inductive cell : Type :=
| Num (q : Q)
| Null
| Text (s : string).

Definition Series : Type := list cell.

Definition DataFrame (R : Type) : Type := list R.

(** Fallible steps: [None] stands for a raised exception. *)
Definition bind {A B : Type} (m : option A) (k : A -> option B) : option B :=
  match m with
  | Some a => k a
  | None => None
  end.

Notation "x <- m ;; k" := (bind m (fun x => k))
  (at level 61, m at next level, right associativity).

Definition cell_to_float (c : cell) : option float :=
  match c with
  | Num q => Some (Fin q)
  | Null => Some nan
  | Text _ => None
  end.

(** [s.astype(float)]: raises as soon as one value is rejected. *)
Fixpoint astype_float (s : Series) : option (list float) :=
  match s with
  | [] => Some []
  | c :: s' =>
      x <- cell_to_float c ;;
      xs <- astype_float s' ;;
      Some (x :: xs)
  end.

(** [np.nansum]: the sum in which every [nan] counts as zero. *)
Definition nansum (xs : list float) : float :=
  fold_left (fun acc x => if isnan x then acc else fadd acc x) xs (Fin 0).

(** [np.ones(k)] as a series. *)
Definition ones (k : nat) : Series := repeat (Num 1) k.

(** ** The analyzer *)

(** The body of the [try] block of [_safe_rate]. *)
Definition safe_rate_try (numer denom : Series) : option float :=
  ns <- astype_float numer ;;
  ds <- astype_float denom ;;
  let n := nansum ns in
  let d := nansum ds in
  if fgtb d (Fin 0) then pydiv n d else Some nan.

Definition _safe_rate (numer denom : Series) : float :=
  match safe_rate_try numer denom with
  | Some r => r
  | None => nan
  end.

(** ** Sorting and distinct values, as the pandas calls use them *)

Section Sort.

Variable A : Type.
Variable le : A -> A -> bool.

Fixpoint insert (x : A) (l : list A) : list A :=
  match l with
  | [] => [x]
  | y :: l' => if le x y then x :: l else y :: insert x l'
  end.

(** Sorting by [le]; values that [le] relates both ways keep their order. *)
Definition sort (l : list A) : list A := fold_right insert [] l.

End Sort.

(** Two group values fall in the same group: with [dropna=False] the missing
    values form one group. *)
Definition label_eqb (a b : label) : bool :=
  match a, b with
  | Some x, Some y => String.eqb x y
  | None, None => true
  | _, _ => false
  end.

(** Order of the group keys after [groupby]: ascending, missing key last. *)
Definition label_leb (a b : label) : bool :=
  match a, b with
  | Some x, Some y => String.leb x y
  | _, None => true
  | None, Some _ => false
  end.

(** Distinct values in order of first appearance. *)
Fixpoint unique (s : list label) : list label :=
  match s with
  | [] => []
  | k :: s' => k :: filter (fun j => negb (label_eqb j k)) (unique s')
  end.

Definition count (k : label) (s : list label) : nat :=
  length (filter (label_eqb k) s).

(** One row of the result of [group_rates]: columns [group_col], "rate", "n". *)
Record GroupRate : Type := mkGroupRate {
  group : label;
  rate : float;
  n : nat
}.

(** One row of the result of [disparity_table]: the columns of [group_rates]
    and the four columns the function adds. *)
Record DisparityRow : Type := mkDisparityRow {
  base : GroupRate;
  rate_diff_vs_overall : float;
  risk_ratio_vs_overall : float;
  rate_vs_ref : float;
  reference_group : option label
}.

(** Order used by [sort_values("rate", ascending=False)]: larger rate first,
    [nan] after every number (na_position is 'last'). *)
Definition rate_geb (a b : GroupRate) : bool :=
  match rate a, rate b with
  | _, nan => true
  | nan, Fin _ => false
  | Fin x, Fin y => Qle_bool y x
  end.

(** [s.value_counts(dropna=False)]: each distinct value with the number of
    its occurrences, larger counts first. *)
Definition value_counts (s : list label) : list (label * nat) :=
  sort (fun a b => snd b <=? snd a) (map (fun k => (k, count k s)) (unique s)).

(** [g.merge(totals, on=group_col, how="left")]: the rows of [g] in order,
    each with the count that [totals] has for its key.  [totals] comes from
    the same column as [g], so every key of [g] has exactly one match there
    (lemma [merge_value_counts]) and no row is left without a count. *)
Definition merge (g : list (label * float)) (totals : list (label * nat))
  : list GroupRate :=
  flat_map
    (fun kr => map (fun t => mkGroupRate (fst kr) (snd kr) (snd t))
                   (filter (fun t => label_eqb (fst t) (fst kr)) totals))
    g.

(** Element of [rates[group_col] == reference]: a missing key equals nothing,
    not even a missing reference, and nothing equals Python's [None]. *)
Definition col_eqb (k : label) (reference : option label) : bool :=
  match k, reference with
  | Some a, Some (Some b) => String.eqb a b
  | _, _ => false
  end.

(** The guard [x and not np.isnan(x) and x > 0]. *)
Definition usable (x : float) : bool :=
  truthy x && negb (isnan x) && fgtb x (Fin 0).

Section Analyzer.

Context {R : Type}.

Definition selection_rate (df : DataFrame R) (outcome_col : R -> cell) : float :=
  _safe_rate (map outcome_col df) (ones (length df)).

(** [df.groupby(group_col, dropna=False)]: the sorted keys, each with the
    rows that carry it, in their order in [df].  A frame without rows has no
    group; the call of [group_rates] on such a frame raises, which
    [group_rates_run] states. *)
Definition groupby (df : DataFrame R) (group_col : R -> label)
  : list (label * DataFrame R) :=
  map (fun k => (k, filter (fun r => label_eqb (group_col r) k) df))
      (sort label_leb (unique (map group_col df))).

(** The table that [group_rates] returns on a frame with rows.  The last
    step, [sort_values("rate", ascending=False)], is modelled by a stable
    sort; pandas sorts with kind 'quicksort', which leaves the order of rows
    of equal rate open, so the order that the model gives to such rows is
    only one of the orders the code can give. *)
Definition group_rates (df : DataFrame R) (group_col : R -> label)
    (outcome_col : R -> cell) : list GroupRate :=
  let g :=
    map (fun kx => (fst kx, selection_rate (snd kx) outcome_col))
        (groupby df group_col) in
  let totals := value_counts (map group_col df) in
  sort rate_geb (merge g totals).

(** [reference] is [None] when the caller passes no reference. *)
Definition disparity_table (df : DataFrame R) (group_col : R -> label)
    (outcome_col : R -> cell) (reference : option label)
  : list DisparityRow :=
  let rates := group_rates df group_col outcome_col in
  let overall := selection_rate df outcome_col in
  let reference :=
    match reference, rates with
    | None, r :: _ => Some (group r)
    | _, _ => reference
    end in
  let ref_rate :=
    match filter (fun r => col_eqb (group r) reference) rates with
    | r :: _ => rate r
    | [] => overall
    end in
  map (fun r =>
         {| base := r;
            rate_diff_vs_overall := fsub (rate r) overall;
            risk_ratio_vs_overall :=
              if usable overall then fdiv (rate r) overall else nan;
            rate_vs_ref :=
              if usable ref_rate then fdiv (rate r) ref_rate else nan;
            reference_group := reference |})
      rates.

End Analyzer.

(** ** Formatting *)

Definition fmul (x y : float) : float :=
  match x, y with
  | Fin a, Fin b => Fin (Qred (a * b))
  | _, _ => nan
  end.

(** Nearest integer, a tie going to the even one. *)
Definition round_half_even (q : Q) : Z :=
  let f := (Qnum q / Z.pos (Qden q))%Z in
  let r := (Qnum q mod Z.pos (Qden q))%Z in
  match (2 * r ?= Z.pos (Qden q))%Z with
  | Lt => f
  | Gt => (f + 1)%Z
  | Eq => if Z.even f then f else (f + 1)%Z
  end.

Definition digits (z : Z) : string :=
  NilZero.string_of_uint (N.to_uint (Z.to_N z)).

(** The format [0.1f]: sign, integer part, point, one decimal. *)
Definition format_1f (x : float) : string :=
  match x with
  | nan => "nan"
  | Fin q =>
      let t := round_half_even (Qabs q * 10) in
      ((if Qle_bool 0 q then "" else "-")
         ++ digits (t / 10) ++ "." ++ digits (t mod 10))%string
  end.

Definition pct (x : float) : string :=
  if isnan x then "-"%string
  else (format_1f (fmul x (Fin 100)) ++ "%")%string.

(** ** Quantities used in the statements *)

(** The sum of the numbers of a column; a value that is not a number adds
    nothing. *)
Fixpoint total (s : Series) : Q :=
  match s with
  | [] => 0
  | Num q :: s' => q + total s'
  | _ :: s' => total s'
  end.

(** No value of the column makes [astype(float)] raise. *)
Definition coercible (s : Series) : bool :=
  forallb (fun c => match c with Text _ => false | _ => true end) s.

(** The column holds at least one number. *)
Definition has_numeric (s : Series) : bool :=
  existsb (fun c => match c with Num _ => true | _ => false end) s.

(** A value that is 0, 1 or missing. *)
Definition indicator (c : cell) : Prop :=
  match c with
  | Num q => q == 0 \/ q == 1
  | Null => True
  | Text _ => False
  end.

(** The row count as a number. *)
Definition rows {R : Type} (df : DataFrame R) : Q :=
  inject_Z (Z.of_nat (length df)).

(** ** Example data: the required columns of the dashboard *)

Record pupil : Type := mkPupil {
  school_year : label;
  grade : label;
  gender : label;
  race_ethnicity : label;
  referred : cell;
  tested : cell;
  qualified : cell;
  placed : cell
}.

(** A pupil of the given gender and qualification value. *)
Definition pupil_of (g : label) (q : cell) : pupil :=
  {| school_year := Some "2023-24"%string; grade := Some "3"%string;
     gender := g; race_ethnicity := None;
     referred := Num 1; tested := Num 1; qualified := q; placed := Num 0 |}.

Definition girl (q : cell) : pupil := pupil_of (Some "F"%string) q.
Definition boy (q : cell) : pupil := pupil_of (Some "M"%string) q.

(** Ten pupils, six "F" and four "M"; three "F" and one "M" qualified. *)
Definition ten_pupils : DataFrame pupil :=
  [girl (Num 1); boy (Num 0); girl (Num 0); girl (Num 1); boy (Num 1);
   girl (Num 0); boy (Num 0); girl (Num 1); girl (Num 0); boy (Num 0)].

(** ** Relations used in the statements *)

(** What [astype(float)] makes of a value it accepts. *)
Definition to_float (c : cell) : float :=
  match c with
  | Num q => Fin q
  | _ => nan
  end.

(** [a] stays before [b] in a sort by [le]: it is not smaller, and where
    the two tie, [a] is the one that [before] puts first. *)
Definition keeps {A : Type} (le : A -> A -> bool) (before : A -> A -> Prop)
    (a b : A) : Prop :=
  le a b = true /\ (le b a = true -> before a b).

(** [a] comes strictly before [b] among the group keys. *)
Definition key_before (a b : label) : Prop :=
  label_leb a b = true /\ a <> b.

(** The rows of [df] of one group. *)
Definition members {R : Type} (df : DataFrame R) (group_col : R -> label)
    (k : label) : DataFrame R :=
  filter (fun r => label_eqb (group_col r) k) df.

(** The row of [group_rates] for one group. *)
Definition group_row {R : Type} (df : DataFrame R) (group_col : R -> label)
    (outcome_col : R -> cell) (k : label) : GroupRate :=
  mkGroupRate k (selection_rate (members df group_col k) outcome_col)
              (count k (map group_col df)).

(** The group keys in the order in which [groupby] lists them. *)
Definition group_keys {R : Type} (df : DataFrame R) (group_col : R -> label)
  : list label :=
  sort label_leb (unique (map group_col df)).

(** The sum of the column "n" of a table. *)
Definition sum_n (t : list GroupRate) : nat := list_sum (map n t).

(** Row [a] may stand before row [b] in the result of [group_rates]: its
    rate is not smaller (an undefined rate is smaller than any number), and
    if the rates tie, its group key is the smaller one. *)
Definition ranks_before (a b : GroupRate) : Prop :=
  rate_geb a b = true
  /\ (rate_geb b a = true -> key_before (group a) (group b)).

(** Position of the first row of the frame that has group value [k]. *)
Fixpoint first_seen (k : label) (s : list label) : nat :=
  match s with
  | [] => 0
  | j :: s' => if label_eqb j k then 0 else S (first_seen k s')
  end.

(** The tie rule of C5 as the claim words it: of two rows of the result
    with the same rate, the one whose group is met first in the frame comes
    first. *)
Definition ties_by_encounter {R : Type} (df : DataFrame R)
    (group_col : R -> label) (outcome_col : R -> cell) : Prop :=
  forall l1 a l2 b l3,
    group_rates df group_col outcome_col = l1 ++ a :: l2 ++ b :: l3 ->
    rate a = rate b ->
    (first_seen (group a) (map group_col df)
     < first_seen (group b) (map group_col df))%nat.

(** The reading of C7: in the table computed without a reference, the row
    of the group that the table names as reference has [rate_vs_ref] 1. *)
Definition reference_row_is_one {R : Type} (df : DataFrame R)
    (group_col : R -> label) (outcome_col : R -> cell) : Prop :=
  forall row,
    In row (disparity_table df group_col outcome_col None) ->
    reference_group row = Some (group (base row)) ->
    rate_vs_ref row = Fin 1.

(** The group value and the outcome value of every row. *)
Definition cells {R : Type} (df : DataFrame R)
    (group_col : R -> label) (outcome_col : R -> cell) : list (label * cell) :=
  map (fun r => (group_col r, outcome_col r)) df.

(** ** Quantities of the further properties *)





(** ** The script around the analyzer: the minimum group size *)

(** [tbl[tbl["n"] >= min_group_size]]. *)
Definition at_least (min_group_size : nat) (tbl : list GroupRate)
  : list GroupRate :=
  filter (fun r => min_group_size <=? n r) tbl.

(** Element of [df[group_col].isin(values)]; a missing value is in a list
    that holds a missing value. *)
Definition isin (k : label) (values : list label) : bool :=
  existsb (label_eqb k) values.

(** [df[df[group_col].isin(tbl[group_col])]]. *)
Definition keep_groups {R : Type} (df : DataFrame R) (group_col : R -> label)
    (tbl : list GroupRate) : DataFrame R :=
  filter (fun r => isin (group_col r) (map group tbl)) df.

(** The block of the script that shows the disparities: [None] when it
    warns that no group meets the minimum size, else the table it shows. *)
Definition shown_disparities {R : Type} (df : DataFrame R)
    (group_col : R -> label) (outcome_col : R -> cell)
    (min_group_size : nat) : option (list DisparityRow) :=
  let tbl := at_least min_group_size (group_rates df group_col outcome_col) in
  match tbl with
  | [] => None
  | _ :: _ =>
      Some (disparity_table (keep_groups df group_col tbl)
                            group_col outcome_col None)
  end.

(** ** The script around the analyzer: the most recent school year *)

(** A character that the pattern [\d] matches; strings are taken as ASCII
    text. *)
Definition is_digit (c : ascii) : bool :=
  ((48 <=? nat_of_ascii c) && (nat_of_ascii c <=? 57))%nat.

Definition digit_value (c : ascii) : nat := (nat_of_ascii c - 48)%nat.

(** [astype(str)] on a value of the column: a missing value reads "nan". *)
Definition astype_str (l : label) : string :=
  match l with
  | Some s => s
  | None => "nan"%string
  end.

(** [str.extract(r"(\d{4})")] followed by [astype(float)]: the number
    written by the first four digits in a row, [None] (NaN) when the text
    has no such run. *)
Fixpoint extract_year (s : string) : option nat :=
  match s with
  | EmptyString => None
  | String a s' =>
      match s' with
      | String b (String c (String d _)) =>
          if is_digit a && is_digit b && is_digit c && is_digit d
          then Some (1000 * digit_value a + 100 * digit_value b
                     + 10 * digit_value c + digit_value d)%nat
          else extract_year s'
      | _ => None
      end
  end.

(** The value of the helper column "_year" in a row. *)
Definition year_of (l : label) : option nat := extract_year (astype_str l).

(** [Series.max()]: the largest number of the column, NaN skipped; [None]
    (NaN) when the column holds no number. *)
Fixpoint year_max (ys : list (option nat)) : option nat :=
  match ys with
  | [] => None
  | y :: ys' =>
      match y, year_max ys' with
      | Some a, Some b => Some (Nat.max a b)
      | Some a, None => Some a
      | None, mx => mx
      end
  end.

(** Element of [df["_year"] == df["_year"].max()]; NaN equals nothing. *)
Definition year_eqb (y mx : option nat) : bool :=
  match y, mx with
  | Some a, Some b => a =? b
  | _, _ => false
  end.

(** The filter to the most recent school year.  None of its steps raises,
    so the [except] branch is not taken; the helper column is dropped at the
    end, which leaves the rows as they are. *)
Definition latest_year {R : Type} (df : DataFrame R) (school_year_col : R -> label)
  : DataFrame R :=
  let years := map (fun r => year_of (school_year_col r)) df in
  filter (fun r => year_eqb (year_of (school_year_col r)) (year_max years)) df.

(** The three figures at the top of the dashboard. *)
Definition headline (df : DataFrame pupil) : list string :=
  [pct (selection_rate df referred);
   pct (selection_rate df qualified);
   pct (selection_rate df placed)].

(** ** The script around the analyzer: numeric columns and the funnel *)

Section ToNumeric.

(** The number that pandas reads in a text, if it reads one. *)
Variable numeric_of_text : string -> option Q.

(** Element of [pd.to_numeric(s, errors="coerce")]: a number stays, a
    missing value stays missing, a text becomes the number read in it or,
    when none is read, a missing value. *)
Definition to_numeric_cell (c : cell) : cell :=
  match c with
  | Text t =>
      match numeric_of_text t with
      | Some q => Num q
      | None => Null
      end
  | _ => c
  end.

Definition to_numeric (s : Series) : Series := map to_numeric_cell s.

(** The loop of the script over the outcome columns; a frame of pupils has
    four of the seven columns that the loop looks for. *)
Definition coerce_outcomes (df : DataFrame pupil) : DataFrame pupil :=
  map (fun r =>
         {| school_year := school_year r;
            grade := grade r;
            gender := gender r;
            race_ethnicity := race_ethnicity r;
            referred := to_numeric_cell (referred r);
            tested := to_numeric_cell (tested r);
            qualified := to_numeric_cell (qualified r);
            placed := to_numeric_cell (placed r) |})
      df.

End ToNumeric.

(** The outcome columns of a frame of pupils. *)
Definition outcome_columns : list (pupil -> cell) :=
  [referred; tested; qualified; placed].





(** ** The script around the analyzer: the column mapping *)

(** The names that the script maps, in the order of [col_map_defaults]. *)
Definition canonical : list string :=
  ["school_year"; "grade"; "gender"; "race_ethnicity"; "ell"; "iep"; "frl";
   "referred"; "tested"; "qualified"; "placed"]%string.

(** The list [required] of the script. *)
Definition required : list string :=
  ["school_year"; "grade"; "gender"; "race_ethnicity";
   "referred"; "tested"; "qualified"; "placed"]%string.

(** [c in df.columns]. *)
Definition has_column (cols : list string) (c : string) : bool :=
  existsb (String.eqb c) cols.

(** [col_map]: for each name, the text of its input field. *)
Definition col_map (input : string -> string) : list (string * string) :=
  map (fun k => (k, input k)) canonical.

(** The entries that the comprehension of [rename_dict] produces, in order:
    the column of the file to rename and its new name. *)
Definition rename_dict (cm : list (string * string)) (cols : list string)
  : list (string * string) :=
  map (fun kv => (snd kv, fst kv))
      (filter (fun kv => has_column cols (snd kv)
                         && negb (String.eqb (snd kv) (fst kv)))
              cm).

(** Lookup in a dict given by its entries in order: a later entry of a key
    replaces an earlier one. *)
Fixpoint dict_get (d : list (string * string)) (c : string) : option string :=
  match d with
  | [] => None
  | (k, v) :: d' =>
      match dict_get d' c with
      | Some w => Some w
      | None => if String.eqb k c then Some v else None
      end
  end.

(** The column names after [df.rename(columns=d)]. *)
Definition rename_columns (d : list (string * string)) (cols : list string)
  : list string :=
  map (fun c => match dict_get d c with Some k => k | None => c end) cols.

(** The column names of the frame after the mapping step of the script. *)
Definition mapped_columns (input : string -> string) (cols : list string)
  : list string :=
  rename_columns (rename_dict (col_map input) cols) cols.

(** The list [missing] of the script; the script stops when it is not
    empty. *)
Definition missing (cols : list string) : list string :=
  filter (fun c => negb (has_column cols c)) required.

(** An example of input fields: the file calls the gender column "sex" and
    the qualified column "gt_qualified". *)
Definition example_input (k : string) : string :=
  if String.eqb k "gender" then "sex"%string
  else if String.eqb k "qualified" then "gt_qualified"%string
  else k.

Definition example_columns : list string :=
  ["school_year"; "grade"; "sex"; "race_ethnicity"; "referred"; "tested";
   "gt_qualified"; "placed"; "notes"]%string.

(** ** Calls on a frame without rows *)

(** What a call gives: a value, or a raised exception. *)
Inductive outcome (A : Type) : Type :=
| Raised
| Value (a : A).

Arguments Raised {A}.
Arguments Value {A} a.

(** A call of [group_rates].  On a frame without rows [apply] hands back a
    frame, not a series, and [reset_index(name="rate")] raises TypeError; on
    a frame with rows the call gives the table [group_rates]. *)
Definition group_rates_run {R : Type} (df : DataFrame R)
    (group_col : R -> label) (outcome_col : R -> cell)
  : outcome (list GroupRate) :=
  match df with
  | [] => Raised
  | _ :: _ => Value (group_rates df group_col outcome_col)
  end.

(** A call of [disparity_table]: its first step is the call of
    [group_rates], so it raises on a frame without rows. *)
Definition disparity_table_run {R : Type} (df : DataFrame R)
    (group_col : R -> label) (outcome_col : R -> cell)
    (reference : option label) : outcome (list DisparityRow) :=
  match df with
  | [] => Raised
  | _ :: _ => Value (disparity_table df group_col outcome_col reference)
  end.

(** The block of the script that shows the disparities, as it runs: it
    raises on a frame without rows, warns ([Value None]) when no group meets
    the minimum size, and else shows a table. *)
Definition shown_disparities_run {R : Type} (df : DataFrame R)
    (group_col : R -> label) (outcome_col : R -> cell)
    (min_group_size : nat) : outcome (option (list DisparityRow)) :=
  match df with
  | [] => Raised
  | _ :: _ => Value (shown_disparities df group_col outcome_col min_group_size)
  end.

(** ** The same arithmetic in binary64 *)

(** [_safe_rate] and [selection_rate] once more, on the floats of the
    machine, to see where rounding shows.  [np.nansum] adds a short array
    in array order. *)
Module Binary64.

Import PrimFloat.

Set Warnings "-inexact-float".

(** A value of an outcome column: a binary64 number, a missing value, or
    text that [float()] rejects. *)
Inductive value : Type :=
| Num64 (x : float)
| Null64
| Text64 (s : string).

Definition to_float64 (c : value) : option float :=
  match c with
  | Num64 x => Some x
  | Null64 => Some nan
  | Text64 _ => None
  end.

Fixpoint astype_float64 (s : list value) : option (list float) :=
  match s with
  | [] => Some []
  | c :: s' =>
      match to_float64 c, astype_float64 s' with
      | Some x, Some xs => Some (x :: xs)
      | _, _ => None
      end
  end.

Definition nansum64 (xs : list float) : float :=
  fold_left (fun acc x => if is_nan x then acc else (acc + x)%float)
            xs 0%float.

Definition safe_rate64 (numer denom : list value) : float :=
  match astype_float64 numer, astype_float64 denom with
  | Some ns, Some ds =>
      let n := nansum64 ns in
      let d := nansum64 ds in
      if (0 <? d)%float then (n / d)%float else nan
  | _, _ => nan
  end.

Definition selection_rate64 (col : list value) : float :=
  safe_rate64 col (repeat (Num64 1%float) (length col)).


(** The outcome values 0.1, 0.2, 0.3 and the same values reversed. *)
Definition rising : list value := [Num64 0.1; Num64 0.2; Num64 0.3]%float.
Definition falling : list value := [Num64 0.3; Num64 0.2; Num64 0.1]%float.


Definition one_fifth : float := 0.2%float.

End Binary64.

(** * Properties *)

(** ** Coercion and summation *)

Lemma astype_float_coercible (s : Series) :
  coercible s = true -> astype_float s = Some (map to_float s).
Proof.
  induction s as [|c s IH]; simpl; intros H; [reflexivity|].
  apply andb_true_iff in H. destruct H as [Hc Hs].
  rewrite (IH Hs). destruct c; simpl; try reflexivity. discriminate.
Qed.

Lemma astype_float_raises (s : Series) :
  coercible s = false -> astype_float s = None.
Proof.
  induction s as [|c s IH]; simpl; intros H; [discriminate|].
  apply andb_false_iff in H. destruct c; simpl; try reflexivity.
  - destruct H as [H|H]; [discriminate|]. now rewrite (IH H).
  - destruct H as [H|H]; [discriminate|]. now rewrite (IH H).
Qed.

Lemma nansum_from (s : Series) (a : Q) :
  exists q,
    fold_left (fun acc x => if isnan x then acc else fadd acc x)
              (map to_float s) (Fin a) = Fin q
    /\ q == a + total s.
Proof.
  revert a. induction s as [|c s IH]; intros a; simpl.
  - exists a. split; [reflexivity|ring].
  - destruct c as [q| |t]; simpl.
    + destruct (IH (Qred (a + q))) as [r [Hr Er]].
      exists r. split; [exact Hr|]. rewrite Er, Qred_correct. ring.
    + apply IH.
    + apply IH.
Qed.

Lemma nansum_total (s : Series) :
  exists q, nansum (map to_float s) = Fin q /\ q == total s.
Proof.
  destruct (nansum_from s 0) as [q [Hq Eq]].
  exists q. split; [exact Hq|]. rewrite Eq. ring.
Qed.

Lemma coercible_ones (k : nat) : coercible (ones k) = true.
Proof. induction k; simpl; auto. Qed.

Lemma total_ones (k : nat) : total (ones k) == inject_Z (Z.of_nat k).
Proof.
  induction k as [|k IH].
  - reflexivity.
  - change (ones (S k)) with (Num 1 :: ones k). cbn [total].
    rewrite IH, Nat2Z.inj_succ. unfold Z.succ. rewrite inject_Z_plus. ring.
Qed.

Lemma rows_pos {R : Type} (df : DataFrame R) : df <> [] -> 0 < rows df.
Proof.
  intros H. destruct df as [|r df]; [congruence|].
  unfold rows. change 0 with (inject_Z 0). rewrite <- Zlt_Qlt.
  simpl length. lia.
Qed.

(** [selection_rate] in closed form: the sum of the numbers over the row
    count, unless the frame is empty or the coercion raises. *)
Lemma selection_rate_closed {R : Type} (df : DataFrame R) (col : R -> cell) :
  selection_rate df col =
    if coercible (map col df) then
      match df with
      | [] => nan
      | _ :: _ => Fin (Qred (total (map col df) / rows df))
      end
    else nan.
Proof.
  unfold selection_rate, _safe_rate, safe_rate_try.
  destruct (coercible (map col df)) eqn:Hc.
  - rewrite (astype_float_coercible _ Hc).
    rewrite (astype_float_coercible _ (coercible_ones _)). simpl bind.
    destruct (nansum_total (map col df)) as [nq [Hn En]].
    destruct (nansum_total (ones (length df))) as [dq [Hd Ed]].
    rewrite Hn, Hd. rewrite total_ones in Ed. fold (rows df) in Ed.
    destruct df as [|r df].
    + assert (E0 : dq == 0) by (rewrite Ed; reflexivity).
      simpl. destruct (Qle_bool dq 0) eqn:Hle; [reflexivity|].
      assert (Qle_bool dq 0 = true) by (apply Qle_bool_iff; rewrite E0; apply Qle_refl).
      congruence.
    + assert (Hpos : 0 < dq) by (rewrite Ed; apply rows_pos; discriminate).
      simpl fgtb.
      destruct (Qle_bool dq 0) eqn:Hle.
      { apply Qle_bool_iff in Hle. exfalso. apply (Qlt_not_le _ _ Hpos Hle). }
      simpl negb. cbv iota. unfold pydiv.
      destruct (Qeq_bool dq 0) eqn:Hz.
      { apply Qeq_bool_iff in Hz. rewrite Hz in Hpos. exfalso.
        apply (Qlt_irrefl _ Hpos). }
      f_equal. apply Qred_complete. rewrite En, Ed. reflexivity.
  - rewrite (astype_float_raises _ Hc). reflexivity.
Qed.

Lemma coercible_perm (s s' : Series) :
  Permutation s s' -> coercible s = coercible s'.
Proof.
  induction 1 as [|c s s' _ IH|c d s|s s' s'' _ IH1 _ IH2]; simpl.
  - reflexivity.
  - now rewrite IH.
  - now rewrite !andb_assoc, (andb_comm (match d with Text _ => false | _ => true end)).
  - congruence.
Qed.

Lemma total_perm (s s' : Series) : Permutation s s' -> total s == total s'.
Proof.
  induction 1 as [|c s s' _ IH|c d s|s s' s'' _ IH1 _ IH2].
  - reflexivity.
  - destruct c; simpl; rewrite IH; reflexivity.
  - destruct c, d; simpl; ring.
  - now rewrite IH1.
Qed.

Lemma total_indicator (s : Series) :
  Forall indicator s -> 0 <= total s /\ total s <= inject_Z (Z.of_nat (length s)).
Proof.
  induction 1 as [|c s Hc _ [IH0 IH1]].
  - simpl. split; apply Qle_refl.
  - simpl length. rewrite Nat2Z.inj_succ. unfold Z.succ. rewrite inject_Z_plus.
    change (inject_Z 1) with 1.
    destruct c as [q| |t]; simpl in *.
    + destruct Hc as [Hq|Hq]; rewrite Hq; split; lra.
    + split; lra.
    + contradiction.
Qed.

Lemma indicator_coercible (s : Series) : Forall indicator s -> coercible s = true.
Proof.
  induction 1 as [|c s Hc _ IH]; simpl; [reflexivity|].
  rewrite IH. destruct c; simpl in *; auto.
Qed.

(** The rate is a function of the outcome column, taken as a multiset. *)
Lemma selection_rate_series_perm {R R' : Type}
    (df : DataFrame R) (df' : DataFrame R')
    (col : R -> cell) (col' : R' -> cell) :
  Permutation (map col df) (map col' df') ->
  selection_rate df col = selection_rate df' col'.
Proof.
  intros HP. rewrite !selection_rate_closed.
  rewrite <- (coercible_perm HP).
  destruct (coercible (map col df)); [|reflexivity].
  pose proof (Permutation_length HP) as HL. rewrite !length_map in HL.
  destruct df as [|r df], df' as [|r' df']; try discriminate.
  - reflexivity.
  - f_equal. apply Qred_complete.
    unfold rows. rewrite <- HL, (total_perm HP). reflexivity.
Qed.

(** ** Claims on [selection_rate] *)

(** C1, as stated, fails: a frame of one pupil whose outcome is missing has
    rows, and its outcome column has no number, yet the rate is 0 and not
    the undefined value. *)
Lemma c1_all_missing_is_zero :
  ~ (selection_rate [girl Null] qualified = nan
     <-> (length [girl Null] = 0%nat
          \/ has_numeric (map qualified [girl Null]) = false)).
Proof.
  intros [_ H].
  assert (E : selection_rate [girl Null] qualified = nan) by (apply H; right; reflexivity).
  vm_compute in E. discriminate.
Qed.

(** C1, amended: [selection_rate] is the undefined value exactly when the
    frame has no row or a value of the outcome column cannot be coerced to a
    float; and on a frame with rows whose outcome values are all 0, 1 or
    missing it is a number of the interval [0, 1]. *)
Theorem c1_selection_rate_undefined_or_unit {R : Type}
    (df : DataFrame R) (outcome_col : R -> cell) :
  (selection_rate df outcome_col = nan
   <-> (length df = 0%nat \/ coercible (map outcome_col df) = false))
  /\ (df <> [] -> Forall indicator (map outcome_col df) ->
      exists q, selection_rate df outcome_col = Fin q /\ 0 <= q /\ q <= 1).
Proof.
  rewrite selection_rate_closed. split.
  - destruct (coercible (map outcome_col df)) eqn:Hc.
    + destruct df as [|r df]; simpl length; split; intros H; auto.
      * discriminate.
      * destruct H; discriminate.
    + split; auto.
  - intros Hne Hind. rewrite (indicator_coercible Hind).
    destruct (total_indicator Hind) as [H0 H1].
    rewrite length_map in H1. fold (rows df) in H1.
    pose proof (rows_pos Hne) as Hpos.
    destruct df as [|r df]; [congruence|].
    eexists. split; [reflexivity|]. rewrite Qred_correct. split.
    + apply Qle_shift_div_l; [exact Hpos|]. lra.
    + apply Qle_shift_div_r; [exact Hpos|]. lra.
Qed.

Lemma c1_selection_rate_undefined_or_unit_witness :
  exists q, selection_rate ten_pupils qualified = Fin q /\ 0 <= q /\ q <= 1.
Proof.
  apply (proj2 (c1_selection_rate_undefined_or_unit ten_pupils qualified)).
  - discriminate.
  - repeat constructor; simpl; auto; right; reflexivity.
Defined.

(** C2, as stated, fails for a value that is not a number and not missing:
    with outcomes 1 and "abc" the text does not count as zero over two rows,
    which would give 1/2; the coercion raises and the rate is undefined. *)
Lemma c2_text_is_not_zero :
  ~ (selection_rate [girl (Num 1); boy (Text "abc")] qualified
     = Fin (Qred (total (map qualified [girl (Num 1); boy (Text "abc")])
                  / rows [girl (Num 1); boy (Text "abc")]))).
Proof. vm_compute. discriminate. Qed.

(** C2, amended: on a frame with rows whose outcome column can be coerced,
    a missing value adds nothing to the numerator and is still counted in
    the denominator, which is the row count of the frame; and when the
    coercion of the column raises, as it does for text that is not a number,
    the result is the undefined value. *)
Theorem c2_selection_rate_total_over_rows {R : Type}
    (df : DataFrame R) (outcome_col : R -> cell) :
  (coercible (map outcome_col df) = true -> df <> [] ->
   selection_rate df outcome_col
   = Fin (Qred (total (map outcome_col df) / rows df)))
  /\ (coercible (map outcome_col df) = false ->
      selection_rate df outcome_col = nan).
Proof.
  rewrite selection_rate_closed. split.
  - intros Hc Hne. rewrite Hc. destruct df; [congruence|reflexivity].
  - intros Hc. now rewrite Hc.
Qed.

Lemma c2_selection_rate_total_over_rows_witness :
  selection_rate [girl (Num 1); girl Null; boy Null; boy (Num 0)] qualified
    = Fin (1 # 4)
  /\ selection_rate [girl (Num 1); boy (Text "abc")] qualified = nan.
Proof.
  split.
  - rewrite (proj1 (c2_selection_rate_total_over_rows
                      [girl (Num 1); girl Null; boy Null; boy (Num 0)] qualified));
      [reflexivity | reflexivity | discriminate].
  - apply (proj2 (c2_selection_rate_total_over_rows
                    [girl (Num 1); boy (Text "abc")] qualified)).
    reflexivity.
Defined.

(** C10, as stated, fails on the floats of the machine: the rate of the
    outcome values 0.1, 0.2, 0.3 is not the rate of the same values in the
    reverse order, because the sum is rounded after each addition. *)
Lemma c10_binary64_order_matters :
  ~ (forall s s' : list Binary64.value,
       Permutation s s' ->
       Binary64.selection_rate64 s' = Binary64.selection_rate64 s).
Proof.
  intros H.
  specialize (H Binary64.rising Binary64.falling
                (Permutation_rev Binary64.rising)).
  apply (f_equal (fun x => PrimFloat.leb x Binary64.one_fifth)) in H.
  vm_compute in H. discriminate.
Qed.

(** C10, amended: on a frame whose outcome values are all 0, 1 or missing,
    so that every partial sum is a whole number and no addition rounds,
    reordering the rows does not change the selection rate. *)
Theorem c10_selection_rate_permutation {R : Type}
    (df df' : DataFrame R) (outcome_col : R -> cell) :
  Forall indicator (map outcome_col df) ->
  Permutation df df' ->
  selection_rate df' outcome_col = selection_rate df outcome_col.
Proof.
  intros _ HP. symmetry. apply selection_rate_series_perm.
  now apply Permutation_map.
Qed.

Lemma c10_selection_rate_permutation_witness :
  selection_rate [boy (Num 0); girl (Num 1); girl Null] qualified
  = selection_rate [girl (Num 1); girl Null; boy (Num 0)] qualified.
Proof.
  apply c10_selection_rate_permutation.
  - repeat constructor; simpl; auto; right; reflexivity.
  - apply Permutation_sym,
      (Permutation_cons_append [girl (Num 1); girl Null] (boy (Num 0))).
Defined.

(** ** Facts on the sort *)

Section SortFacts.

Variable A : Type.
Variable le : A -> A -> bool.

Lemma insert_perm (x : A) (l : list A) : Permutation (insert le x l) (x :: l).
Proof.
  induction l as [|y l IH]; simpl; [reflexivity|].
  destruct (le x y); [reflexivity|].
  rewrite IH. apply perm_swap.
Qed.

Lemma sort_perm (l : list A) : Permutation (sort le l) l.
Proof.
  induction l as [|x l IH]; simpl; [reflexivity|].
  rewrite insert_perm. now constructor.
Qed.

Hypothesis le_total : forall a b, le a b = true \/ le b a = true.
Hypothesis le_trans : forall a b c, le a b = true -> le b c = true -> le a c = true.

Variable before : A -> A -> Prop.

Lemma insert_keeps (x : A) (l : list A) :
  StronglySorted (keeps le before) l -> Forall (before x) l ->
  StronglySorted (keeps le before) (insert le x l).
Proof.
  induction l as [|y l IH]; simpl; intros HS HB.
  - repeat constructor.
  - inversion HS as [|? ? HSl Hy]; subst.
    inversion HB as [|? ? Hxy HBl]; subst.
    destruct (le x y) eqn:Hle.
    + constructor; [exact HS|].
      constructor; [split; auto|].
      rewrite Forall_forall in *. intros z Hz. split.
      * apply (le_trans Hle). apply (Hy z Hz).
      * intros _. apply (HBl z Hz).
    + constructor; [apply IH; assumption|].
      apply (Permutation_Forall (Permutation_sym (insert_perm x l))).
      constructor; [|exact Hy].
      split; [|congruence].
      destruct (le_total x y) as [H|H]; [congruence|exact H].
Qed.

(** The sort is stable: a list that [before] orders comes out ordered by
    [le], ties in the order [before]. *)
Lemma sort_keeps (l : list A) :
  StronglySorted before l -> StronglySorted (keeps le before) (sort le l).
Proof.
  induction 1 as [|x l HS IH Hx]; simpl; [constructor|].
  apply insert_keeps; [exact IH|].
  apply (Permutation_Forall (Permutation_sym (sort_perm l)) Hx).
Qed.

End SortFacts.

Lemma StronglySorted_impl {A : Type} (P Q : A -> A -> Prop) (l : list A) :
  (forall a b, P a b -> Q a b) -> StronglySorted P l -> StronglySorted Q l.
Proof.
  intros H. induction 1 as [|x l _ IH Hx]; constructor; [exact IH|].
  eapply Forall_impl; [|exact Hx]. intros b. apply H.
Qed.

Lemma StronglySorted_map {A B : Type} (f : A -> B) (P : B -> B -> Prop) (l : list A) :
  StronglySorted (fun a b => P (f a) (f b)) l -> StronglySorted P (map f l).
Proof.
  induction 1 as [|x l _ IH Hx]; simpl; constructor; [exact IH|].
  apply Forall_map. exact Hx.
Qed.

(** In a list that [P] orders, any element is [P]-related to a later one. *)
Lemma StronglySorted_split {A : Type} (P : A -> A -> Prop)
    (l1 l2 l3 : list A) (a b : A) :
  StronglySorted P (l1 ++ a :: l2 ++ b :: l3) -> P a b.
Proof.
  induction l1 as [|x l1 IH]; simpl; intros HS.
  - inversion HS as [|? ? _ Ha]; subst.
    rewrite Forall_forall in Ha. apply Ha.
    apply in_or_app. right. now left.
  - inversion HS; subst. now apply IH.
Qed.

(** ** Facts on group values *)

Lemma label_eqb_eq (a b : label) : label_eqb a b = true <-> a = b.
Proof.
  destruct a as [x|], b as [y|]; simpl; split; intros H;
    try discriminate; try reflexivity.
  - apply String.eqb_eq in H. now subst.
  - injection H as ->. apply String.eqb_refl.
Qed.

Lemma label_eqb_refl (a : label) : label_eqb a a = true.
Proof. now apply label_eqb_eq. Qed.

Lemma label_eqb_sym (a b : label) : label_eqb a b = label_eqb b a.
Proof.
  destruct (label_eqb a b) eqn:H1, (label_eqb b a) eqn:H2; auto.
  - apply label_eqb_eq in H1. subst. now rewrite label_eqb_refl in H2.
  - apply label_eqb_eq in H2. subst. now rewrite label_eqb_refl in H1.
Qed.

Lemma string_leb_trans (a b c : string) :
  String.leb a b = true -> String.leb b c = true -> String.leb a c = true.
Proof.
  unfold String.leb. intros Hab Hbc.
  destruct (String.compare a b) eqn:Eab; try discriminate.
  - apply String.compare_eq_iff in Eab. subst. exact Hbc.
  - destruct (String.compare b c) eqn:Ebc; try discriminate.
    + apply String.compare_eq_iff in Ebc. subst. now rewrite Eab.
    + apply OrderedTypeEx.String_as_OT.cmp_lt in Eab, Ebc.
      pose proof (OrderedTypeEx.String_as_OT.lt_trans _ _ _ Eab Ebc) as Hac.
      apply OrderedTypeEx.String_as_OT.cmp_lt in Hac.
      unfold OrderedTypeEx.String_as_OT.cmp in Hac. now rewrite Hac.
Qed.

Lemma label_leb_total (a b : label) :
  label_leb a b = true \/ label_leb b a = true.
Proof.
  destruct a as [x|], b as [y|]; simpl; auto. apply String.leb_total.
Qed.

Lemma label_leb_trans (a b c : label) :
  label_leb a b = true -> label_leb b c = true -> label_leb a c = true.
Proof.
  destruct a as [x|], b as [y|], c as [z|]; simpl; auto; try discriminate.
  apply string_leb_trans.
Qed.

Lemma label_leb_antisym (a b : label) :
  label_leb a b = true -> label_leb b a = true -> a = b.
Proof.
  destruct a as [x|], b as [y|]; simpl; auto; try discriminate.
  intros H1 H2. f_equal. now apply String.leb_antisym.
Qed.

(** ** Distinct values and counts *)

Lemma in_unique (k : label) (s : list label) : In k (unique s) <-> In k s.
Proof.
  induction s as [|x s IH]; simpl; [tauto|].
  rewrite filter_In, IH. split.
  - intros [H|[H _]]; auto.
  - intros [H|H]; auto.
    destruct (label_eqb k x) eqn:E.
    + apply label_eqb_eq in E. auto.
    + right. split; auto.
Qed.

Lemma NoDup_unique (s : list label) : NoDup (unique s).
Proof.
  induction s as [|x s IH]; simpl; constructor.
  - rewrite filter_In, label_eqb_refl. intros [_ H]. discriminate.
  - now apply NoDup_filter.
Qed.

Lemma count_cons (k x : label) (s : list label) :
  count k (x :: s) = ((if label_eqb k x then 1 else 0) + count k s)%nat.
Proof. unfold count. simpl. destruct (label_eqb k x); reflexivity. Qed.

Lemma count_notin (k : label) (s : list label) : ~ In k s -> count k s = 0%nat.
Proof.
  induction s as [|x s IH]; intros H; [reflexivity|].
  rewrite count_cons, IH by (intros ?; apply H; now right).
  destruct (label_eqb k x) eqn:E; [|reflexivity].
  apply label_eqb_eq in E. subst. exfalso. apply H. now left.
Qed.

Lemma count_perm (k : label) (s s' : list label) :
  Permutation s s' -> count k s = count k s'.
Proof.
  intros H. unfold count. apply Permutation_length.
  clear -H. induction H; simpl; auto.
  - destruct (label_eqb k x); auto.
  - destruct (label_eqb k x), (label_eqb k y); auto. apply perm_swap.
  - etransitivity; eauto.
Qed.

Lemma filter_all {A : Type} (p : A -> bool) (l : list A) :
  (forall x, In x l -> p x = true) -> filter p l = l.
Proof.
  induction l as [|y l IH]; simpl; intros H; [reflexivity|].
  rewrite (H y) by now left. f_equal. apply IH. intros x Hx. apply H. now right.
Qed.

(** Taking [x] out of a duplicate-free list of keys splits a sum over it. *)
Lemma list_sum_take_out (f : label -> nat) (x : label) (U : list label) :
  NoDup U -> (~ In x U -> f x = 0%nat) ->
  (f x + list_sum (map f (filter (fun j => negb (label_eqb j x)) U)))%nat
  = list_sum (map f U).
Proof.
  induction 1 as [|u U Hu HU IH]; simpl; intros Hx.
  - rewrite Hx by tauto. reflexivity.
  - destruct (label_eqb u x) eqn:E; simpl.
    + apply label_eqb_eq in E. subst u.
      rewrite filter_all; [reflexivity|].
      intros j Hj. destruct (label_eqb j x) eqn:Ej; [|reflexivity].
      apply label_eqb_eq in Ej. subst. contradiction.
    + rewrite <- IH.
      * lia.
      * intros Hn. apply Hx. intros [H|H]; [|contradiction].
        subst. now rewrite label_eqb_refl in E.
Qed.

Lemma sum_count_unique (s : list label) :
  list_sum (map (fun k => count k s) (unique s)) = length s.
Proof.
  induction s as [|x s IH]; [reflexivity|].
  cbn [unique map list_sum length].
  rewrite count_cons, label_eqb_refl.
  rewrite (map_ext_in (fun k => count k (x :: s)) (fun k => count k s)).
  - pose proof (list_sum_take_out (fun k => count k s) x (NoDup_unique s)) as H.
    rewrite IH in H. simpl. rewrite <- H; [reflexivity|].
    intros Hx. apply count_notin. now rewrite <- in_unique.
  - intros k Hk. apply filter_In in Hk. destruct Hk as [_ Hk].
    rewrite count_cons. destruct (label_eqb k x); [discriminate|reflexivity].
Qed.

(** ** The merge of the rates with the counts *)

Lemma filter_key_single {B : Type} (f : label -> B) (k : label) (U : list label) :
  NoDup U -> In k U ->
  filter (fun t => label_eqb (fst t) k) (map (fun j => (j, f j)) U) = [(k, f k)].
Proof.
  induction 1 as [|u U Hu HU IH]; simpl; intros Hk; [contradiction|].
  destruct (label_eqb u k) eqn:E.
  - apply label_eqb_eq in E. subst u. f_equal.
    clear IH Hk. induction U as [|v U IHU]; simpl; [reflexivity|].
    destruct (label_eqb v k) eqn:Ev.
    + apply label_eqb_eq in Ev. subst. exfalso. apply Hu. now left.
    + apply IHU.
      * intros H. apply Hu. now right.
      * now inversion HU.
  - destruct Hk as [Hk|Hk].
    + subst. now rewrite label_eqb_refl in E.
    + now apply IH.
Qed.

Lemma filter_perm {A : Type} (p : A -> bool) (l l' : list A) :
  Permutation l l' -> Permutation (filter p l) (filter p l').
Proof.
  induction 1; simpl; auto.
  - destruct (p x); auto.
  - destruct (p x), (p y); auto. apply perm_swap.
  - etransitivity; eauto.
Qed.

Lemma value_counts_lookup (s : list label) (k : label) :
  In k s ->
  filter (fun t => label_eqb (fst t) k) (value_counts s) = [(k, count k s)].
Proof.
  intros Hk. unfold value_counts.
  apply Permutation_length_1_inv.
  rewrite <- (@filter_key_single _ (fun j => count j s) k _ (NoDup_unique s)
                (proj2 (in_unique k s) Hk)).
  apply filter_perm, Permutation_sym, sort_perm.
Qed.

(** Every key of the grouped rates has exactly one count, so the merge keeps
    the rows of the grouped rates, each with its count. *)
Lemma merge_value_counts (rate_of : label -> float) (s keys : list label) :
  (forall k, In k keys -> In k s) ->
  merge (map (fun k => (k, rate_of k)) keys) (value_counts s)
  = map (fun k => mkGroupRate k (rate_of k) (count k s)) keys.
Proof.
  induction keys as [|k keys IH]; intros H; [reflexivity|].
  unfold merge in *. cbn [map flat_map fst snd].
  rewrite IH by (intros j Hj; apply H; now right).
  rewrite value_counts_lookup by (apply H; now left). reflexivity.
Qed.

Section AnalyzerFacts.

Context {R : Type}.
Variable df : DataFrame R.
Variable group_col : R -> label.
Variable outcome_col : R -> cell.

Lemma group_rates_closed :
  group_rates df group_col outcome_col
  = sort rate_geb (map (group_row df group_col outcome_col)
                       (group_keys df group_col)).
Proof.
  unfold group_rates, groupby. rewrite map_map. simpl.
  fold (group_keys df group_col).
  rewrite (merge_value_counts
             (fun k => selection_rate (members df group_col k) outcome_col)).
  - reflexivity.
  - intros k Hk. apply in_unique.
    apply (Permutation_in _ (sort_perm label_leb _) Hk).
Qed.

Lemma group_keys_perm :
  Permutation (group_keys df group_col) (unique (map group_col df)).
Proof. apply sort_perm. Qed.

Lemma group_rates_perm :
  Permutation (group_rates df group_col outcome_col)
              (map (group_row df group_col outcome_col)
                   (group_keys df group_col)).
Proof. rewrite group_rates_closed. apply sort_perm. Qed.

Lemma group_rates_keys :
  Permutation (map group (group_rates df group_col outcome_col))
              (unique (map group_col df)).
Proof.
  rewrite (Permutation_map group group_rates_perm), map_map. simpl.
  rewrite map_id. apply group_keys_perm.
Qed.

End AnalyzerFacts.

Lemma group_sizes_sum {R : Type}
    (df : DataFrame R) (group_col : R -> label) (outcome_col : R -> cell) :
  sum_n (group_rates df group_col outcome_col) = length df.
Proof.
  unfold sum_n.
  rewrite (Permutation_list_sum
             (Permutation_map n (group_rates_perm df group_col outcome_col))).
  rewrite map_map. simpl.
  rewrite (Permutation_list_sum
             (Permutation_map _ (group_keys_perm df group_col))).
  now rewrite sum_count_unique, length_map.
Qed.

(** C6: on a frame with rows the call of [group_rates] gives a table whose
    group sizes [n] add up to the row count of the frame, rows with a
    missing group value forming a group of their own; on the frame without
    rows the call raises, so there the sum that the claim states is not
    produced. *)
Theorem c6_group_sizes_sum_to_rows {R : Type}
    (group_col : R -> label) (outcome_col : R -> cell) :
  group_rates_run [] group_col outcome_col = Raised
  /\ forall df : DataFrame R,
       df <> [] ->
       exists t, group_rates_run df group_col outcome_col = Value t
                 /\ sum_n t = length df.
Proof.
  split; [reflexivity|]. intros df Hne.
  destruct df as [|r df]; [congruence|].
  eexists. split; [reflexivity|]. apply group_sizes_sum.
Qed.

(** ** The order of the rows of [group_rates] *)

Lemma rate_geb_total (a b : GroupRate) :
  rate_geb a b = true \/ rate_geb b a = true.
Proof.
  unfold rate_geb. destruct (rate a) as [|x], (rate b) as [|y]; auto.
  destruct (Qlt_le_dec x y) as [H|H].
  - right. apply Qle_bool_iff. now apply Qlt_le_weak.
  - left. now apply Qle_bool_iff.
Qed.

Lemma rate_geb_trans (a b c : GroupRate) :
  rate_geb a b = true -> rate_geb b c = true -> rate_geb a c = true.
Proof.
  unfold rate_geb.
  destruct (rate a) as [|x], (rate b) as [|y], (rate c) as [|z];
    auto; try discriminate.
  rewrite !Qle_bool_iff. intros H1 H2. now apply (Qle_trans _ y).
Qed.

Lemma NoDup_StronglySorted {A : Type} (l : list A) :
  NoDup l -> StronglySorted (fun a b => a <> b) l.
Proof.
  induction 1 as [|x l Hx _ IH]; constructor; [exact IH|].
  apply Forall_forall. intros y Hy E. subst. contradiction.
Qed.

(** The keys after [groupby] are in strictly ascending order. *)
Lemma group_keys_sorted {R : Type} (df : DataFrame R) (group_col : R -> label) :
  StronglySorted key_before (group_keys df group_col).
Proof.
  unfold group_keys.
  apply (StronglySorted_impl (P := keeps label_leb (fun a b => a <> b))).
  - intros a b [H1 H2]. split; [exact H1|].
    intros E. subst. now apply (H2 H1).
  - apply sort_keeps.
    + apply label_leb_total.
    + apply label_leb_trans.
    + apply NoDup_StronglySorted, NoDup_unique.
Qed.

Lemma group_rates_ranked {R : Type}
    (df : DataFrame R) (group_col : R -> label) (outcome_col : R -> cell) :
  StronglySorted ranks_before (group_rates df group_col outcome_col).
Proof.
  rewrite group_rates_closed.
  apply (@sort_keeps _ rate_geb rate_geb_total rate_geb_trans
           (fun a b => key_before (group a) (group b))).
  apply (StronglySorted_map (group_row df group_col outcome_col)
           (fun a b => key_before (group a) (group b))).
  exact (group_keys_sorted df group_col).
Qed.

Lemma group_rates_by_rate {R : Type}
    (df : DataFrame R) (group_col : R -> label) (outcome_col : R -> cell) :
  StronglySorted (fun a b => rate_geb a b = true)
                 (group_rates df group_col outcome_col).
Proof.
  apply (StronglySorted_impl (P := ranks_before));
    [|apply group_rates_ranked].
  intros a b [Hab _]. exact Hab.
Qed.

(** C5, as stated, fails on the tie rule: with a qualified "M" pupil
    followed by a qualified "F" pupil both groups have rate 1, "M" is met
    first, and the result lists "F" first. *)
Lemma c5_ties_not_by_encounter :
  ~ ties_by_encounter [boy (Num 1); girl (Num 1)] gender qualified.
Proof.
  intros H.
  specialize (H [] (mkGroupRate (Some "F"%string) (Fin 1) 1) []
                (mkGroupRate (Some "M"%string) (Fin 1) 1) []
                eq_refl eq_refl).
  vm_compute in H. lia.
Qed.

(** C5, amended: the result of [group_rates] holds the rows of the groups,
    each once, sorted by rate in descending order with the groups of
    undefined rate last.  Nothing is said of the order of two rows of equal
    rate: it is not the order in which the groups are met in the frame. *)
Theorem c5_group_rates_order {R : Type}
    (df : DataFrame R) (group_col : R -> label) (outcome_col : R -> cell) :
  StronglySorted (fun a b => rate_geb a b = true)
                 (group_rates df group_col outcome_col)
  /\ Permutation (group_rates df group_col outcome_col)
                 (map (group_row df group_col outcome_col)
                      (group_keys df group_col))
  /\ (forall a b l1 l2 l3 x,
        group_rates df group_col outcome_col = l1 ++ a :: l2 ++ b :: l3 ->
        rate a = nan -> rate b <> Fin x).
Proof.
  pose proof (group_rates_by_rate df group_col outcome_col) as H.
  split; [exact H|]. split; [apply group_rates_perm|].
  intros a b l1 l2 l3 x E Ha Hb. rewrite E in H.
  apply StronglySorted_split in H. unfold rate_geb in H.
  rewrite Ha, Hb in H. discriminate.
Qed.


(** ** Claims on [disparity_table] *)

Lemma disparity_table_row {R : Type} (df : DataFrame R)
    (group_col : R -> label) (outcome_col : R -> cell)
    (reference : option label) (row : DisparityRow) :
  In row (disparity_table df group_col outcome_col reference) ->
  In (base row) (group_rates df group_col outcome_col)
  /\ rate_diff_vs_overall row
     = fsub (rate (base row)) (selection_rate df outcome_col)
  /\ risk_ratio_vs_overall row
     = (if usable (selection_rate df outcome_col)
        then fdiv (rate (base row)) (selection_rate df outcome_col)
        else nan).
Proof.
  unfold disparity_table. cbv zeta. intros H.
  apply in_map_iff in H. destruct H as [r [E Hr]]. subst row. simpl. auto.
Qed.

Lemma no_match_no_rows (ref : label) (rates : list GroupRate) :
  ~ In ref (map group rates) ->
  filter (fun r => col_eqb (group r) (Some ref)) rates = [].
Proof.
  induction rates as [|r rates IH]; simpl; intros H; [reflexivity|].
  destruct (col_eqb (group r) (Some ref)) eqn:E.
  - exfalso. apply H. left.
    unfold col_eqb in E. destruct (group r) as [a|], ref as [b|];
      try discriminate.
    apply String.eqb_eq in E. now subst.
  - apply IH. intros Hin. apply H. now right.
Qed.

Lemma absent_reference_rows {R : Type}
    (df : DataFrame R) (group_col : R -> label) (outcome_col : R -> cell)
    (ref : label) :
  ~ In ref (map group (group_rates df group_col outcome_col)) ->
  map base (disparity_table df group_col outcome_col (Some ref))
  = group_rates df group_col outcome_col
  /\ Forall (fun row =>
               rate_vs_ref row = risk_ratio_vs_overall row
               /\ rate_vs_ref row
                  = (if usable (selection_rate df outcome_col)
                     then fdiv (rate (base row)) (selection_rate df outcome_col)
                     else nan))
            (disparity_table df group_col outcome_col (Some ref)).
Proof.
  intros H. unfold disparity_table. cbv zeta.
  rewrite (no_match_no_rows _ _ H). split.
  - rewrite map_map. simpl. apply map_id.
  - apply Forall_forall. intros row Hrow.
    apply in_map_iff in Hrow. destruct Hrow as [r [E _]]. subst row.
    simpl. auto.
Qed.

(** C3: on a frame with rows, when the reference passed to
    [disparity_table] is not the group of any row of the grouped rates, the
    call gives its table, the overall rate takes the place of the reference
    rate, and in every row [rate_vs_ref] is [risk_ratio_vs_overall]; on the
    frame without rows the call raises before any fallback. *)
Theorem c3_absent_reference_falls_back {R : Type}
    (group_col : R -> label) (outcome_col : R -> cell) (ref : label) :
  disparity_table_run ([] : DataFrame R) group_col outcome_col (Some ref)
  = Raised
  /\ forall df : DataFrame R,
       df <> [] ->
       ~ In ref (map group (group_rates df group_col outcome_col)) ->
       exists t,
         disparity_table_run df group_col outcome_col (Some ref) = Value t
         /\ map base t = group_rates df group_col outcome_col
         /\ Forall (fun row =>
                      rate_vs_ref row = risk_ratio_vs_overall row
                      /\ rate_vs_ref row
                         = (if usable (selection_rate df outcome_col)
                            then fdiv (rate (base row))
                                      (selection_rate df outcome_col)
                            else nan))
                   t.
Proof.
  split; [reflexivity|]. intros df Hne H.
  destruct df as [|r df]; [congruence|].
  eexists. split; [reflexivity|]. now apply absent_reference_rows.
Qed.

(** C8, as stated, fails on its own instance: an outcome column that holds
    only missing values has overall rate 0, not the undefined value, and the
    difference of its group against the overall rate is the number 0. *)
Lemma c8_all_missing_is_defined :
  ~ (has_numeric (map qualified [girl Null]) = false ->
     Forall (fun row => rate_diff_vs_overall row = nan
                        /\ risk_ratio_vs_overall row = nan)
            (disparity_table [girl Null] gender qualified None)).
Proof.
  intros H. specialize (H eq_refl).
  inversion H as [|row l [Hd _] _ E]; subst.
  vm_compute in Hd. discriminate.
Qed.

(** C8, amended: on a frame with rows whose overall rate is the undefined
    value, which is the case when a value of the outcome column cannot be
    coerced and not when the values are only missing, the call of
    [disparity_table] gives its table, and in every row both
    [rate_diff_vs_overall] and [risk_ratio_vs_overall] are the undefined
    value. *)
Theorem c8_undefined_overall_flows {R : Type}
    (df : DataFrame R) (group_col : R -> label) (outcome_col : R -> cell)
    (reference : option label) :
  df <> [] ->
  selection_rate df outcome_col = nan ->
  coercible (map outcome_col df) = false
  /\ exists t,
       disparity_table_run df group_col outcome_col reference = Value t
       /\ map base t = group_rates df group_col outcome_col
       /\ Forall (fun row => rate_diff_vs_overall row = nan
                             /\ risk_ratio_vs_overall row = nan)
                 t.
Proof.
  intros Hne H. split.
  - rewrite selection_rate_closed in H.
    destruct (coercible (map outcome_col df)); [|reflexivity].
    destruct df; [congruence|discriminate].
  - destruct df as [|r0 df0] eqn:D; [congruence|]. rewrite <- D in *.
    exists (disparity_table df group_col outcome_col reference).
    split; [rewrite D; reflexivity|]. split.
    + unfold disparity_table. cbv zeta. rewrite map_map. simpl. apply map_id.
    + apply Forall_forall. intros row Hrow.
      apply disparity_table_row in Hrow. destruct Hrow as [_ [Hd Hr]].
      rewrite Hd, Hr, H. simpl. split; [|reflexivity].
      destruct (rate (base row)); reflexivity.
Qed.

Lemma c8_undefined_overall_flows_witness :
  exists t,
    disparity_table_run [girl (Num 1); boy (Text "n/a"); boy (Num 0)]
                        gender qualified None = Value t
    /\ Forall (fun row => rate_diff_vs_overall row = nan
                          /\ risk_ratio_vs_overall row = nan)
              t.
Proof.
  destruct (@c8_undefined_overall_flows _
              [girl (Num 1); boy (Text "n/a"); boy (Num 0)]
              gender qualified None)
    as [_ [t [E [_ H]]]]; [discriminate|reflexivity|].
  exists t. split; [exact E|exact H].
Defined.

Lemma NoDup_map_eq {A B : Type} (f : A -> B) (l : list A) (a b : A) :
  NoDup (map f l) -> In a l -> In b l -> f a = f b -> a = b.
Proof.
  induction l as [|x l IH]; simpl; intros HN Ha Hb E; [contradiction|].
  inversion HN as [|? ? Hx HN']; subst.
  destruct Ha as [Ha|Ha], Hb as [Hb|Hb]; subst; auto.
  - exfalso. apply Hx. rewrite E. now apply in_map.
  - exfalso. apply Hx. rewrite <- E. now apply in_map.
Qed.

Lemma group_rates_NoDup {R : Type}
    (df : DataFrame R) (group_col : R -> label) (outcome_col : R -> cell) :
  NoDup (map group (group_rates df group_col outcome_col)).
Proof.
  apply (Permutation_NoDup
           (Permutation_sym (group_rates_keys df group_col outcome_col))).
  apply NoDup_unique.
Qed.

Lemma group_rates_nonempty {R : Type}
    (df : DataFrame R) (group_col : R -> label) (outcome_col : R -> cell) :
  df <> [] -> group_rates df group_col outcome_col <> [].
Proof.
  intros Hne E.
  pose proof (group_rates_keys df group_col outcome_col) as HP.
  rewrite E in HP. apply Permutation_nil in HP.
  destruct df as [|r df]; [congruence|]. discriminate.
Qed.

Lemma usable_positive (q : Q) : 0 < q -> usable (Fin q) = true.
Proof.
  intros H. unfold usable. simpl.
  destruct (Qeq_bool q 0) eqn:E.
  - apply Qeq_bool_iff in E. rewrite E in H. now apply Qlt_irrefl in H.
  - destruct (Qle_bool q 0) eqn:L; [|reflexivity].
    apply Qle_bool_iff in L. exfalso. apply (Qlt_not_le _ _ H L).
Qed.

Lemma fdiv_self (q : Q) : 0 < q -> fdiv (Fin q) (Fin q) = Fin 1.
Proof.
  intros H. unfold fdiv.
  destruct (Qeq_bool q 0) eqn:E.
  - apply Qeq_bool_iff in E. rewrite E in H. now apply Qlt_irrefl in H.
  - f_equal. change 1 with (Qred 1). apply Qred_complete.
    apply Qeq_bool_neq in E. now field.
Qed.

(** C7, as stated, fails: for one pupil who did not qualify the only group
    has rate 0, it is the reference, and the guard on the reference rate
    makes [rate_vs_ref] of its row undefined. *)
Lemma c7_zero_rate_reference :
  ~ reference_row_is_one [girl (Num 0)] gender qualified.
Proof.
  intros H.
  assert (E : rate_vs_ref
                {| base := mkGroupRate (Some "F"%string) (Fin 0) 1;
                   rate_diff_vs_overall := Fin 0;
                   risk_ratio_vs_overall := nan;
                   rate_vs_ref := nan;
                   reference_group := Some (Some "F"%string) |} = Fin 1).
  { apply H; [left|]; reflexivity. }
  discriminate.
Qed.

(** C7, amended: on a frame with rows, [disparity_table] without a
    reference takes the group of the first row of [group_rates], a row of
    highest rate, as the reference of every row of its table; and if the
    group value of that row is not missing and its rate is positive, then
    [rate_vs_ref] is 1 in the row of that group. *)
Theorem c7_default_reference {R : Type}
    (df : DataFrame R) (group_col : R -> label) (outcome_col : R -> cell) :
  df <> [] ->
  exists top rest,
    group_rates df group_col outcome_col = top :: rest
    /\ Forall (fun r => rate_geb top r = true) rest
    /\ Forall (fun row => reference_group row = Some (group top))
              (disparity_table df group_col outcome_col None)
    /\ (forall q, group top <> None -> rate top = Fin q -> 0 < q ->
        forall row,
          In row (disparity_table df group_col outcome_col None) ->
          group (base row) = group top ->
          rate_vs_ref row = Fin 1).
Proof.
  intros Hne.
  pose proof (group_rates_nonempty group_col outcome_col Hne) as Hgr.
  pose proof (group_rates_NoDup df group_col outcome_col) as HN.
  pose proof (group_rates_by_rate df group_col outcome_col) as HS.
  unfold disparity_table. cbv zeta.
  destruct (group_rates df group_col outcome_col) as [|top rest]; [congruence|].
  exists top, rest. split; [reflexivity|]. split; [|split].
  - now inversion HS.
  - apply Forall_forall. intros row Hrow.
    apply in_map_iff in Hrow. destruct Hrow as [r [E _]]. now subst row.
  - intros q Hg Hq Hpos row Hrow Hsame.
    apply in_map_iff in Hrow. destruct Hrow as [r [E Hr]]. subst row.
    simpl in Hsame.
    assert (r = top) by (apply (NoDup_map_eq group _ r top HN); simpl; auto).
    subst r. cbn [filter].
    assert (Hm : col_eqb (group top) (Some (group top)) = true).
    { destruct (group top) as [s|]; [apply String.eqb_refl|congruence]. }
    rewrite Hm. simpl. rewrite Hq, (usable_positive Hpos).
    now apply fdiv_self.
Qed.

Lemma c7_default_reference_witness :
  exists row,
    In row (disparity_table ten_pupils gender qualified None)
    /\ group (base row) = Some "F"%string
    /\ reference_group row = Some (Some "F"%string)
    /\ rate_vs_ref row = Fin 1.
Proof.
  destruct (@c7_default_reference _ ten_pupils gender qualified)
    as [top [rest [E [_ [Href Hone]]]]]; [discriminate|].
  vm_compute in E. injection E as <- <-.
  rewrite Forall_forall in Href.
  eexists. split; [left; reflexivity|]. split; [reflexivity|]. split.
  - apply Href. left. reflexivity.
  - apply (Hone (1 # 2)); try reflexivity; [discriminate|left; reflexivity].
Defined.

(** ** Formatting *)







(** ** The tables are functions of the two columns, taken as a multiset *)

Lemma unique_perm (s s' : list label) :
  Permutation s s' -> Permutation (unique s) (unique s').
Proof.
  intros HP. apply NoDup_Permutation; try apply NoDup_unique.
  intros k. rewrite !in_unique. split; apply Permutation_in; auto.
  now apply Permutation_sym.
Qed.

Lemma key_before_sorted_eq (l l' : list label) :
  StronglySorted key_before l -> StronglySorted key_before l' ->
  Permutation l l' -> l = l'.
Proof.
  intros HS. revert l'.
  induction HS as [|x l HS IH Hx]; intros l' HS' HP.
  - apply Permutation_nil in HP. now subst.
  - destruct l' as [|y l'].
    + apply Permutation_sym, Permutation_nil in HP. discriminate.
    + inversion HS' as [|? ? HSl' Hy]; subst.
      assert (x = y) as ->.
      { assert (Hxin : In x (y :: l'))
          by (apply (Permutation_in _ HP); now left).
        assert (Hyin : In y (x :: l))
          by (apply (Permutation_in _ (Permutation_sym HP)); now left).
        destruct Hxin as [E|Hxin]; [now subst|].
        destruct Hyin as [E|Hyin]; [now subst|].
        rewrite Forall_forall in Hx, Hy.
        destruct (Hx _ Hyin) as [H1 _]. destruct (Hy _ Hxin) as [H2 _].
        now apply label_leb_antisym. }
      f_equal. apply IH; [exact HSl'|].
      now apply Permutation_cons_inv in HP.
Qed.

Lemma members_cells {R : Type} (df : DataFrame R)
    (group_col : R -> label) (outcome_col : R -> cell) (k : label) :
  map outcome_col (members df group_col k)
  = map snd (filter (fun p => label_eqb (fst p) k)
                    (cells df group_col outcome_col)).
Proof.
  unfold members, cells. induction df as [|r df IH]; simpl; [reflexivity|].
  destruct (label_eqb (group_col r) k); simpl; now rewrite IH.
Qed.

Lemma group_col_cells {R : Type} (df : DataFrame R)
    (group_col : R -> label) (outcome_col : R -> cell) :
  map group_col df = map fst (cells df group_col outcome_col).
Proof. unfold cells. rewrite map_map. reflexivity. Qed.

Lemma outcome_col_cells {R : Type} (df : DataFrame R)
    (group_col : R -> label) (outcome_col : R -> cell) :
  map outcome_col df = map snd (cells df group_col outcome_col).
Proof. unfold cells. rewrite map_map. reflexivity. Qed.

Section SameCells.

Context {R R' : Type}.
Variable df : DataFrame R.
Variable df' : DataFrame R'.
Variable group_col : R -> label.
Variable group_col' : R' -> label.
Variable outcome_col : R -> cell.
Variable outcome_col' : R' -> cell.

Hypothesis same :
  Permutation (cells df group_col outcome_col)
              (cells df' group_col' outcome_col').

Lemma same_group_column :
  Permutation (map group_col df) (map group_col' df').
Proof.
  rewrite (group_col_cells df group_col outcome_col).
  rewrite (group_col_cells df' group_col' outcome_col').
  now apply Permutation_map.
Qed.

Lemma selection_rate_same :
  selection_rate df outcome_col = selection_rate df' outcome_col'.
Proof.
  apply selection_rate_series_perm.
  rewrite (outcome_col_cells df group_col outcome_col).
  rewrite (outcome_col_cells df' group_col' outcome_col').
  now apply Permutation_map.
Qed.

Lemma group_keys_same : group_keys df group_col = group_keys df' group_col'.
Proof.
  apply key_before_sorted_eq; try apply group_keys_sorted.
  rewrite !group_keys_perm. apply unique_perm, same_group_column.
Qed.

Lemma group_row_same (k : label) :
  group_row df group_col outcome_col k
  = group_row df' group_col' outcome_col' k.
Proof.
  unfold group_row. f_equal.
  - apply selection_rate_series_perm. rewrite !members_cells.
    apply Permutation_map, filter_perm, same.
  - apply count_perm, same_group_column.
Qed.

Lemma group_rates_same :
  group_rates df group_col outcome_col
  = group_rates df' group_col' outcome_col'.
Proof.
  rewrite !group_rates_closed, group_keys_same. f_equal.
  apply map_ext. apply group_row_same.
Qed.

Lemma disparity_table_same (reference : option label) :
  disparity_table df group_col outcome_col reference
  = disparity_table df' group_col' outcome_col' reference.
Proof.
  unfold disparity_table. now rewrite group_rates_same, selection_rate_same.
Qed.

End SameCells.




(** * Further properties of the analyzer *)

(** ** [_safe_rate] with any denominators *)

Lemma Qle_bool_eq (a b c : Q) : a == b -> Qle_bool a c = Qle_bool b c.
Proof.
  intros E. destruct (Qle_bool b c) eqn:H.
  - apply Qle_bool_iff. apply Qle_bool_iff in H. now rewrite E.
  - destruct (Qle_bool a c) eqn:H'; [|reflexivity].
    apply Qle_bool_iff in H'. rewrite E in H'. apply Qle_bool_iff in H'.
    congruence.
Qed.

Lemma safe_rate_closed (numer denom : Series) :
  _safe_rate numer denom =
    if coercible numer && coercible denom then
      if Qle_bool (total denom) 0 then nan
      else Fin (Qred (total numer / total denom))
    else nan.
Proof.
  unfold _safe_rate, safe_rate_try.
  destruct (coercible numer) eqn:Hn; simpl andb.
  - rewrite (astype_float_coercible _ Hn). simpl bind.
    destruct (coercible denom) eqn:Hd.
    + rewrite (astype_float_coercible _ Hd). simpl bind.
      destruct (nansum_total numer) as [nq [En Qn]].
      destruct (nansum_total denom) as [dq [Ed Qd]].
      rewrite En, Ed. simpl fgtb. rewrite (Qle_bool_eq 0 Qd).
      destruct (Qle_bool (total denom) 0) eqn:Hle; [reflexivity|].
      simpl negb. cbv iota. unfold pydiv.
      destruct (Qeq_bool dq 0) eqn:Hz.
      { apply Qeq_bool_iff in Hz. rewrite Qd in Hz.
        assert (Qle_bool (total denom) 0 = true)
          by (apply Qle_bool_iff; rewrite Hz; apply Qle_refl).
        congruence. }
      f_equal. apply Qred_complete. now rewrite Qn, Qd.
    + rewrite (astype_float_raises _ Hd). reflexivity.
  - rewrite (astype_float_raises _ Hn). reflexivity.
Qed.

(** X1: [_safe_rate] gives the undefined value exactly when one of the two
    series cannot be coerced or the denominators do not add up to a positive
    number; otherwise it gives the sum of the numerators over the sum of the
    denominators, missing values adding nothing on either side.  The
    division is never reached with a zero divisor. *)
Theorem x1_safe_rate_guarded (numer denom : Series) :
  (_safe_rate numer denom = nan
   <-> coercible numer = false \/ coercible denom = false
       \/ total denom <= 0)
  /\ (coercible numer = true -> coercible denom = true -> 0 < total denom ->
      _safe_rate numer denom = Fin (Qred (total numer / total denom))).
Proof.
  rewrite safe_rate_closed. split.
  - destruct (coercible numer), (coercible denom); simpl andb; cbv iota;
      try (split; auto; fail).
    destruct (Qle_bool (total denom) 0) eqn:H.
    + apply Qle_bool_iff in H. split; auto.
    + split; [discriminate|].
      intros [C|[C|C]]; try discriminate.
      apply Qle_bool_iff in C. congruence.
  - intros Hn Hd Hpos. rewrite Hn, Hd. simpl andb. cbv iota.
    destruct (Qle_bool (total denom) 0) eqn:H; [|reflexivity].
    apply Qle_bool_iff in H. exfalso. apply (Qlt_not_le _ _ Hpos H).
Qed.

Lemma x1_safe_rate_guarded_witness :
  _safe_rate [Num 3; Null; Num 1] [Num 5; Num 2; Null] = Fin (4 # 7).
Proof.
  rewrite (proj2 (x1_safe_rate_guarded [Num 3; Null; Num 1]
                                       [Num 5; Num 2; Null]));
    reflexivity.
Defined.

(** ** The rows of [group_rates] *)

Lemma group_rates_rows {R : Type}
    (df : DataFrame R) (group_col : R -> label) (outcome_col : R -> cell)
    (r : GroupRate) :
  In r (group_rates df group_col outcome_col) ->
  In (group r) (map group_col df)
  /\ r = group_row df group_col outcome_col (group r).
Proof.
  intros H.
  apply (Permutation_in _ (group_rates_perm df group_col outcome_col)) in H.
  apply in_map_iff in H. destruct H as [k [E Hk]]. subst r. simpl.
  split; [|reflexivity].
  apply in_unique.
  apply (Permutation_in _ (group_keys_perm df group_col) Hk).
Qed.

Lemma count_pos (k : label) (s : list label) : In k s -> (1 <= count k s)%nat.
Proof.
  induction s as [|x s IH]; simpl; intros H; [contradiction|].
  rewrite count_cons. destruct (label_eqb k x) eqn:E; [lia|].
  destruct H as [H|H]; [|specialize (IH H); lia].
  subst. now rewrite label_eqb_refl in E.
Qed.

(** X2: [group_rates] has one row for each distinct value of the group
    column, the missing value included, and no other row; the row of a group
    carries the number of rows of the frame with that value, which is at
    least 1, and the selection rate of these rows. *)
Theorem x2_one_row_per_group {R : Type}
    (df : DataFrame R) (group_col : R -> label) (outcome_col : R -> cell) :
  NoDup (map group (group_rates df group_col outcome_col))
  /\ (forall k, In k (map group (group_rates df group_col outcome_col))
                <-> In k (map group_col df))
  /\ Forall (fun r =>
               n r = count (group r) (map group_col df)
               /\ (1 <= n r)%nat
               /\ rate r
                  = selection_rate (members df group_col (group r))
                                   outcome_col)
            (group_rates df group_col outcome_col).
Proof.
  split; [apply group_rates_NoDup|]. split.
  - intros k. rewrite <- (in_unique k (map group_col df)).
    split; apply Permutation_in.
    + apply group_rates_keys.
    + apply Permutation_sym, group_rates_keys.
  - apply Forall_forall. intros r Hr.
    destruct (group_rates_rows _ _ _ _ Hr) as [Hin E].
    rewrite E. simpl. repeat split. now apply count_pos.
Qed.

Lemma count_members {R : Type} (df : DataFrame R) (group_col : R -> label)
    (k : label) :
  count k (map group_col df) = length (members df group_col k).
Proof.
  unfold count, members. induction df as [|r df IH]; simpl; [reflexivity|].
  rewrite (label_eqb_sym k). destruct (label_eqb (group_col r) k); simpl; auto.
Qed.

Lemma members_sub {R : Type} (df : DataFrame R) (group_col : R -> label)
    (outcome_col : R -> cell) (k : label) (P : cell -> Prop) :
  Forall P (map outcome_col df) ->
  Forall P (map outcome_col (members df group_col k)).
Proof.
  unfold members. induction df as [|r df IH]; simpl; intros H; [constructor|].
  inversion H; subst. destruct (label_eqb (group_col r) k); simpl; auto.
Qed.

Lemma members_nonempty {R : Type} (df : DataFrame R) (group_col : R -> label)
    (k : label) :
  In k (map group_col df) -> members df group_col k <> [].
Proof.
  intros H E. apply count_pos in H. rewrite count_members, E in H.
  simpl in H. lia.
Qed.

Lemma selection_rate_unit {R : Type} (df : DataFrame R) (col : R -> cell) :
  df <> [] -> Forall indicator (map col df) ->
  exists q, selection_rate df col = Fin q /\ 0 <= q /\ q <= 1.
Proof.
  intros Hne Hind. rewrite selection_rate_closed, (indicator_coercible Hind).
  destruct (total_indicator Hind) as [H0 H1].
  rewrite length_map in H1. fold (rows df) in H1.
  pose proof (rows_pos Hne) as Hpos.
  destruct df as [|r df]; [congruence|].
  eexists. split; [reflexivity|]. rewrite Qred_correct. split.
  - apply Qle_shift_div_l; [exact Hpos|]. lra.
  - apply Qle_shift_div_r; [exact Hpos|]. lra.
Qed.

(** X3: when every outcome value of the frame is 0, 1 or missing, no row of
    [group_rates] has an undefined rate, and every rate lies in the interval
    [0, 1]: a group has at least one row, so its denominator is positive. *)
Theorem x3_group_rates_unit {R : Type}
    (df : DataFrame R) (group_col : R -> label) (outcome_col : R -> cell) :
  Forall indicator (map outcome_col df) ->
  Forall (fun r => exists q, rate r = Fin q /\ 0 <= q /\ q <= 1)
         (group_rates df group_col outcome_col).
Proof.
  intros Hind. apply Forall_forall. intros r Hr.
  destruct (group_rates_rows _ _ _ _ Hr) as [Hin E]. rewrite E. simpl.
  apply selection_rate_unit.
  - now apply members_nonempty.
  - now apply members_sub.
Qed.

Lemma x3_group_rates_unit_witness :
  Forall (fun r => exists q, rate r = Fin q /\ 0 <= q /\ q <= 1)
         (group_rates (girl Null :: ten_pupils) gender qualified).
Proof.
  apply (x3_group_rates_unit (girl Null :: ten_pupils) gender qualified).
  repeat constructor; simpl; auto; right; reflexivity.
Defined.

(** ** The group rates and the overall rate *)







Lemma coercible_members {R : Type} (df : DataFrame R) (group_col : R -> label)
    (outcome_col : R -> cell) (k : label) :
  coercible (map outcome_col df) = true ->
  coercible (map outcome_col (members df group_col k)) = true.
Proof.
  unfold members. induction df as [|r df IH]; simpl; intros H; [reflexivity|].
  apply andb_true_iff in H. destruct H as [H1 H2].
  destruct (label_eqb (group_col r) k); simpl; auto.
  now rewrite H1, IH.
Qed.





(** ** More on [disparity_table] *)

Lemma reference_found (s : string) (r0 : GroupRate) (rates : list GroupRate) :
  NoDup (map group rates) -> In r0 rates -> group r0 = Some s ->
  exists rest,
    filter (fun r => col_eqb (group r) (Some (Some s))) rates = r0 :: rest.
Proof.
  induction rates as [|r rates IH]; simpl; intros HN Hin Hg; [contradiction|].
  destruct (col_eqb (group r) (Some (Some s))) eqn:E.
  - assert (Hr : group r = Some s).
    { unfold col_eqb in E. destruct (group r) as [a|]; [|discriminate].
      apply String.eqb_eq in E. now subst. }
    assert (r = r0).
    { apply (NoDup_map_eq group (r :: rates) r r0 HN); simpl; auto.
      congruence. }
    subst. eexists. reflexivity.
  - destruct Hin as [Hin|Hin].
    + subst. rewrite Hg in E. simpl in E. now rewrite String.eqb_refl in E.
    + apply IH; auto. now inversion HN.
Qed.

(** X5: when the reference passed to [disparity_table] is the value of a
    group of positive rate, every row of the table names it as reference,
    [rate_vs_ref] of every row is the rate of the row over the rate of that
    group, and it is 1 in the row of that group. *)
Theorem x5_given_reference {R : Type}
    (df : DataFrame R) (group_col : R -> label) (outcome_col : R -> cell)
    (s : string) (r0 : GroupRate) (q0 : Q) :
  In r0 (group_rates df group_col outcome_col) ->
  group r0 = Some s -> rate r0 = Fin q0 -> 0 < q0 ->
  Forall (fun row =>
            reference_group row = Some (Some s)
            /\ rate_vs_ref row = fdiv (rate (base row)) (Fin q0)
            /\ (group (base row) = Some s -> rate_vs_ref row = Fin 1))
         (disparity_table df group_col outcome_col (Some (Some s))).
Proof.
  intros Hin Hg Hq Hpos.
  pose proof (group_rates_NoDup df group_col outcome_col) as HN.
  destruct (@reference_found s r0 _ HN Hin Hg) as [rest Hf].
  unfold disparity_table. cbv zeta. rewrite Hf, Hq, (usable_positive Hpos).
  apply Forall_forall. intros row Hrow.
  apply in_map_iff in Hrow. destruct Hrow as [r [E Hr]]. subst row. simpl.
  split; [reflexivity|]. split; [reflexivity|].
  intros Hs.
  assert (r = r0)
    by (apply (NoDup_map_eq group _ r r0 HN); auto; congruence).
  subst r. rewrite Hq. now apply fdiv_self.
Qed.

Lemma x5_given_reference_witness :
  Forall (fun row =>
            reference_group row = Some (Some "M"%string)
            /\ rate_vs_ref row = fdiv (rate (base row)) (Fin (1 # 4))
            /\ (group (base row) = Some "M"%string -> rate_vs_ref row = Fin 1))
         (disparity_table ten_pupils gender qualified
                          (Some (Some "M"%string))).
Proof.
  apply (@x5_given_reference _ ten_pupils gender qualified "M"%string
           (mkGroupRate (Some "M"%string) (Fin (1 # 4)) 4) (1 # 4)).
  - right. left. reflexivity.
  - reflexivity.
  - reflexivity.
  - reflexivity.
Defined.



(** X7: on a frame whose outcome values are all 0, 1 or missing, so that
    no sum rounds, the order of the rows has no effect on the tables: a
    reordered frame gives the same [group_rates] and the same
    [disparity_table]. *)
Theorem x7_tables_ignore_row_order {R : Type}
    (df df' : DataFrame R) (group_col : R -> label) (outcome_col : R -> cell)
    (reference : option label) :
  Forall indicator (map outcome_col df) ->
  Permutation df df' ->
  group_rates df group_col outcome_col = group_rates df' group_col outcome_col
  /\ disparity_table df group_col outcome_col reference
     = disparity_table df' group_col outcome_col reference.
Proof.
  intros _ HP.
  assert (HC : Permutation (cells df group_col outcome_col)
                           (cells df' group_col outcome_col))
    by now apply Permutation_map.
  split.
  - now apply group_rates_same.
  - now apply disparity_table_same.
Qed.

Lemma x7_tables_ignore_row_order_witness :
  group_rates ten_pupils gender qualified
  = group_rates (rev ten_pupils) gender qualified
  /\ disparity_table ten_pupils gender qualified None
     = disparity_table (rev ten_pupils) gender qualified None.
Proof.
  apply (x7_tables_ignore_row_order (df := ten_pupils) (df' := rev ten_pupils)).
  - repeat constructor; simpl; auto; right; reflexivity.
  - apply Permutation_rev.
Defined.

(** * Properties of the script around the analyzer *)

(** ** Sorting and filtering commute *)

Section SortFilter.

Variable A : Type.
Variable le : A -> A -> bool.
Variable p : A -> bool.

Hypothesis le_total : forall a b, le a b = true \/ le b a = true.
Hypothesis le_trans : forall a b c, le a b = true -> le b c = true -> le a c = true.

Lemma sort_sorted (l : list A) :
  StronglySorted (fun a b => le a b = true) (sort le l).
Proof.
  apply (StronglySorted_impl (P := keeps le (fun _ _ => True))).
  - intros a b [H _]. exact H.
  - apply sort_keeps; auto.
    induction l; constructor; auto. apply Forall_forall. auto.
Qed.

Lemma insert_first (x : A) (l : list A) :
  Forall (fun z => le x z = true) l -> insert le x l = x :: l.
Proof.
  intros H. destruct l as [|z l]; [reflexivity|].
  simpl. inversion H; subst. now rewrite H2.
Qed.

Lemma filter_insert (x : A) (l : list A) :
  StronglySorted (fun a b => le a b = true) l ->
  filter p (insert le x l)
  = if p x then insert le x (filter p l) else filter p l.
Proof.
  induction 1 as [|y l HS IH Hy]; simpl.
  - destruct (p x); reflexivity.
  - destruct (le x y) eqn:Hxy.
    + simpl. destruct (p x); [|reflexivity].
      symmetry. apply insert_first.
      assert (Hall : Forall (fun z => le x z = true) (y :: l)).
      { constructor; [exact Hxy|]. eapply Forall_impl; [|exact Hy].
        intros z Hz. now apply (le_trans Hxy). }
      change (Forall (fun z => le x z = true) (filter p (y :: l))).
      apply Forall_forall. intros z Hz. apply filter_In in Hz.
      rewrite Forall_forall in Hall. now apply Hall.
    + simpl. rewrite IH. destruct (p y), (p x); simpl; try reflexivity.
      now rewrite Hxy.
Qed.

Lemma filter_sort (l : list A) :
  filter p (sort le l) = sort le (filter p l).
Proof.
  induction l as [|x l IH]; simpl; [reflexivity|].
  rewrite filter_insert by apply sort_sorted.
  rewrite IH. destruct (p x); reflexivity.
Qed.

End SortFilter.

Lemma filter_filter_comm {A : Type} (p q : A -> bool) (l : list A) :
  filter p (filter q l) = filter q (filter p l).
Proof.
  induction l as [|x l IH]; simpl; [reflexivity|].
  destruct (p x) eqn:Hp, (q x) eqn:Hq; simpl; rewrite ?Hp, ?Hq, IH; reflexivity.
Qed.

Lemma unique_filter (p : label -> bool) (s : list label) :
  unique (filter p s) = filter p (unique s).
Proof.
  induction s as [|x s IH]; simpl; [reflexivity|].
  destruct (p x) eqn:Hp; simpl.
  - rewrite IH. f_equal. apply filter_filter_comm.
  - rewrite IH, filter_filter_comm. symmetry. apply filter_all.
    intros j Hj. apply filter_In in Hj. destruct Hj as [_ Hj].
    destruct (label_eqb j x) eqn:E; [|reflexivity].
    apply label_eqb_eq in E. subst. congruence.
Qed.

Lemma map_filter_col {R B : Type} (f : R -> B) (p : B -> bool) (l : list R) :
  map f (filter (fun r => p (f r)) l) = filter p (map f l).
Proof.
  induction l as [|x l IH]; simpl; [reflexivity|].
  destruct (p (f x)); simpl; now rewrite IH.
Qed.

Lemma filter_map_row {A B : Type} (f : A -> B) (q : B -> bool) (l : list A) :
  filter q (map f l) = map f (filter (fun a => q (f a)) l).
Proof.
  induction l as [|x l IH]; simpl; [reflexivity|].
  destruct (q (f x)); simpl; now rewrite IH.
Qed.

(** ** The minimum group size *)

Lemma members_filter {R : Type} (df : DataFrame R) (group_col : R -> label)
    (p : label -> bool) (k : label) :
  p k = true ->
  members (filter (fun r => p (group_col r)) df) group_col k
  = members df group_col k.
Proof.
  intros Hk. unfold members.
  induction df as [|r l IH]; simpl; [reflexivity|].
  destruct (p (group_col r)) eqn:Hr; simpl.
  - now rewrite IH.
  - rewrite IH. destruct (label_eqb (group_col r) k) eqn:E; [|reflexivity].
    apply label_eqb_eq in E. congruence.
Qed.

Section MinGroupSize.

Context {R : Type}.
Variable df : DataFrame R.
Variable group_col : R -> label.
Variable outcome_col : R -> cell.
Variable m : nat.

Let tbl := at_least m (group_rates df group_col outcome_col).
Let kept (k : label) : bool := isin k (map group tbl).

Lemma kept_spec (k : label) :
  In k (map group_col df) ->
  kept k = (m <=? count k (map group_col df)).
Proof.
  intros Hk. unfold kept, isin, tbl, at_least.
  destruct (m <=? count k (map group_col df)) eqn:E.
  - apply existsb_exists. exists k. split; [|apply label_eqb_refl].
    apply in_map_iff. exists (group_row df group_col outcome_col k).
    split; [reflexivity|]. apply filter_In. split; [|exact E].
    apply (Permutation_in _
             (Permutation_sym (group_rates_perm df group_col outcome_col))).
    apply in_map.
    apply (Permutation_in _ (Permutation_sym (group_keys_perm df group_col))).
    now apply in_unique.
  - destruct (existsb _ _) eqn:X; [|reflexivity].
    apply existsb_exists in X. destruct X as [j [Hj Ej]].
    apply label_eqb_eq in Ej. subst j.
    apply in_map_iff in Hj. destruct Hj as [r [Hg Hr]].
    apply filter_In in Hr. destruct Hr as [Hr Hn].
    destruct (group_rates_rows _ _ _ _ Hr) as [_ Er].
    rewrite Er, Hg in Hn. simpl in Hn. congruence.
Qed.

Lemma kept_in (k : label) : kept k = true -> In k (map group_col df).
Proof.
  unfold kept, isin, tbl, at_least. intros X.
  apply existsb_exists in X. destruct X as [j [Hj Ej]].
  apply label_eqb_eq in Ej. subst j.
  apply in_map_iff in Hj. destruct Hj as [r [Hg Hr]].
  apply filter_In in Hr. destruct Hr as [Hr _].
  destruct (group_rates_rows _ _ _ _ Hr) as [Hin _]. now rewrite <- Hg.
Qed.

Lemma keep_groups_members (k : label) :
  kept k = true ->
  members (keep_groups df group_col tbl) group_col k = members df group_col k.
Proof.
  intros Hk. unfold keep_groups.
  exact (members_filter df group_col kept k Hk).
Qed.

Lemma keep_groups_row (k : label) :
  kept k = true ->
  group_row (keep_groups df group_col tbl) group_col outcome_col k
  = group_row df group_col outcome_col k.
Proof.
  intros Hk. unfold group_row.
  now rewrite !count_members, !keep_groups_members.
Qed.

Lemma keep_groups_keys :
  group_keys (keep_groups df group_col tbl) group_col
  = filter kept (group_keys df group_col).
Proof.
  unfold group_keys, keep_groups. fold kept.
  rewrite (map_filter_col group_col kept), unique_filter.
  symmetry. apply filter_sort.
  - apply label_leb_total.
  - apply label_leb_trans.
Qed.

Lemma keep_groups_rates :
  group_rates (keep_groups df group_col tbl) group_col outcome_col = tbl.
Proof.
  rewrite group_rates_closed, keep_groups_keys.
  unfold tbl at 2, at_least. rewrite group_rates_closed.
  rewrite (@filter_sort _ rate_geb _ rate_geb_total rate_geb_trans).
  f_equal. rewrite filter_map_row. simpl.
  rewrite (filter_ext_in kept
             (fun k => m <=? count k (map group_col df))).
  - apply map_ext_in. intros k Hk. apply filter_In in Hk.
    destruct Hk as [Hin Hm]. apply keep_groups_row.
    rewrite kept_spec; [exact Hm|].
    apply in_unique.
    apply (Permutation_in _ (group_keys_perm df group_col) Hin).
  - intros k Hk. apply kept_spec. apply in_unique.
    apply (Permutation_in _ (group_keys_perm df group_col) Hk).
Qed.

End MinGroupSize.

(** X8: on a frame with rows, the frame that the script keeps for the
    disparity table, the rows whose group passed the minimum size, has as
    its [group_rates] the rows of the first table that passed, each group
    once with the same size and the same rate (the order of rows of equal
    rate apart).  The script warns instead of showing a table exactly when
    no group has the minimum size, and the table it shows has one row for
    each group that has it.  On a frame without rows the block raises. *)
Theorem x8_minimum_group_size {R : Type}
    (group_col : R -> label) (outcome_col : R -> cell)
    (min_group_size : nat) :
  shown_disparities_run ([] : DataFrame R) group_col outcome_col
                        min_group_size = Raised
  /\ forall df : DataFrame R,
       df <> [] ->
       let tbl :=
         at_least min_group_size (group_rates df group_col outcome_col) in
       Permutation
         (group_rates (keep_groups df group_col tbl) group_col outcome_col)
         tbl
       /\ (shown_disparities_run df group_col outcome_col min_group_size
           = Value None
           <-> Forall (fun r => (n r < min_group_size)%nat)
                      (group_rates df group_col outcome_col))
       /\ (forall t,
             shown_disparities_run df group_col outcome_col min_group_size
             = Value (Some t) ->
             Permutation (map base t) tbl).
Proof.
  split; [reflexivity|]. intros df Hne tbl.
  pose proof (keep_groups_rates df group_col outcome_col min_group_size) as H.
  fold tbl in H.
  assert (Hrun : shown_disparities_run df group_col outcome_col min_group_size
                 = Value (shown_disparities df group_col outcome_col
                                            min_group_size))
    by (destruct df; [congruence|reflexivity]).
  rewrite Hrun. split; [rewrite H; reflexivity|]. split.
  - unfold shown_disparities. fold tbl. rewrite Forall_forall. split.
    + intros E r Hr. destruct tbl as [|x t] eqn:T; [|discriminate].
      destruct (min_group_size <=? n r) eqn:L.
      * assert (In r tbl)
          by (unfold tbl, at_least; apply filter_In; auto).
        rewrite T in *. contradiction.
      * apply Nat.leb_gt in L. exact L.
    + intros Hall. destruct tbl as [|x t] eqn:T; [reflexivity|].
      assert (Hx : In x tbl) by (rewrite T; now left).
      unfold tbl, at_least in Hx. apply filter_In in Hx.
      destruct Hx as [Hx L]. apply Nat.leb_le in L.
      specialize (Hall x Hx). lia.
  - intros t. unfold shown_disparities. fold tbl.
    destruct tbl as [|x l] eqn:T; [discriminate|].
    intros E. injection E as <-. unfold disparity_table. cbv zeta.
    rewrite map_map. simpl. rewrite map_id, H. reflexivity.
Qed.

Lemma x8_minimum_group_size_witness :
  exists t,
    shown_disparities_run ten_pupils gender qualified 5 = Value (Some t)
    /\ Permutation (map base t)
                   [mkGroupRate (Some "F"%string) (Fin (1 # 2)) 6].
Proof.
  eexists. split; [reflexivity|].
  apply (proj2 (proj2 (proj2 (x8_minimum_group_size gender qualified 5)
                         ten_pupils ltac:(discriminate)))).
  reflexivity.
Defined.

(** ** The most recent school year *)

Lemma year_max_none (ys : list (option nat)) :
  year_max ys = None <-> (forall y, ~ In (Some y) ys).
Proof.
  induction ys as [|y ys IH]; simpl.
  - split; auto.
  - destruct y as [a|].
    + split.
      * destruct (year_max ys); discriminate.
      * intros H. exfalso. apply (H a). now left.
    + rewrite IH. split.
      * intros H y [E|Hy]; [discriminate|]. now apply (H y).
      * intros H y Hy. apply (H y). now right.
Qed.

Lemma year_max_some (ys : list (option nat)) (mx : nat) :
  year_max ys = Some mx <->
  In (Some mx) ys /\ (forall y, In (Some y) ys -> (y <= mx)%nat).
Proof.
  revert mx. induction ys as [|y ys IH]; intros mx; simpl.
  - split; [discriminate|]. intros [[] _].
  - destruct y as [a|].
    + destruct (year_max ys) as [b|] eqn:E.
      * specialize (IH b). destruct (proj1 IH eq_refl) as [Hb Hle]. split.
        -- intros H. injection H as <-. split.
           ++ destruct (Nat.max_spec a b) as [[_ ->]|[_ ->]]; auto.
           ++ intros y [Hy|Hy]; [injection Hy as ->; lia|].
              specialize (Hle y Hy). lia.
        -- intros [Hin Hall]. f_equal.
           assert (a <= mx)%nat by (apply Hall; now left).
           assert (b <= mx)%nat by (apply Hall; now right).
           destruct Hin as [Hin|Hin]; [injection Hin as ->; lia|].
           specialize (Hle mx Hin). lia.
      * pose proof (proj1 (year_max_none ys) E) as Hn. split.
        -- intros H. injection H as <-. split; [now left|].
           intros y [Hy|Hy]; [injection Hy as ->; lia|].
           now apply Hn in Hy.
        -- intros [[Hin|Hin] _]; [congruence|]. now apply Hn in Hin.
    + rewrite IH. split.
      * intros [Hin Hall]. split; [now right|].
        intros y [Hy|Hy]; [discriminate|]. now apply Hall.
      * intros [[Hin|Hin] Hall]; [discriminate|]. split; [exact Hin|].
        intros y Hy. apply Hall. now right.
Qed.

Lemma year_eqb_true (y mx : option nat) :
  year_eqb y mx = true <-> exists a, y = Some a /\ mx = Some a.
Proof.
  destruct y as [a|], mx as [b|]; simpl; split;
    try discriminate; try (intros [c [H1 H2]]; discriminate).
  - intros H. apply Nat.eqb_eq in H. subst. eauto.
  - intros [c [H1 H2]]. injection H1 as ->. injection H2 as ->.
    apply Nat.eqb_refl.
Qed.

(** X9: the filter to the most recent school year reads in each school
    year text the first run of four digits as a number, and keeps exactly
    the rows whose number is the largest of the frame; rows are kept in
    their order, and a row whose school year holds no four digits in a row
    is dropped. *)
Theorem x9_latest_year_rows {R : Type}
    (df : DataFrame R) (school_year_col : R -> label) (r : R) :
  In r (latest_year df school_year_col)
  <-> In r df
      /\ exists y,
           year_of (school_year_col r) = Some y
           /\ forall r' y',
                In r' df -> year_of (school_year_col r') = Some y' ->
                (y' <= y)%nat.
Proof.
  unfold latest_year. cbv zeta. rewrite filter_In, year_eqb_true.
  split.
  - intros [Hin [a [Hy Hm]]]. split; [exact Hin|]. exists a.
    split; [exact Hy|]. intros r' y' Hr' Hy'.
    apply year_max_some in Hm. destruct Hm as [_ Hall]. apply Hall.
    rewrite <- Hy'. now apply (in_map (fun r => year_of (school_year_col r))).
  - intros [Hin [y [Hy Hall]]]. split; [exact Hin|]. exists y.
    split; [exact Hy|]. apply year_max_some. split.
    + rewrite <- Hy. now apply (in_map (fun r => year_of (school_year_col r))).
    + intros y' Hy'. apply in_map_iff in Hy'. destruct Hy' as [r' [E Hr']].
      now apply (Hall r').
Qed.

Lemma latest_year_years {R : Type} (df : DataFrame R) (c : R -> label) :
  Forall (fun r => year_of (c r)
                   = year_max (map (fun r => year_of (c r)) df)
                   /\ year_of (c r) <> None)
         (latest_year df c).
Proof.
  apply Forall_forall. intros r Hr. unfold latest_year in Hr.
  apply filter_In in Hr. destruct Hr as [_ Hr].
  apply year_eqb_true in Hr. destruct Hr as [a [H1 H2]].
  rewrite H1, H2. split; [reflexivity|discriminate].
Qed.

Lemma year_max_constant (ys : list (option nat)) (a : nat) :
  ys <> [] -> Forall (fun y => y = Some a) ys -> year_max ys = Some a.
Proof.
  intros Hne H. apply year_max_some. destruct ys as [|y ys]; [congruence|].
  inversion H; subst. split; [now left|].
  intros y Hy. rewrite Forall_forall in H. apply H in Hy.
  injection Hy as ->. lia.
Qed.

Lemma filter_idem {A : Type} (p : A -> bool) (l : list A) :
  filter p (filter p l) = filter p l.
Proof.
  apply filter_all. intros x Hx. now apply filter_In in Hx.
Qed.

(** X10: the filter to the most recent school year changes nothing when it
    is applied a second time, and all the rows it keeps have the same year.
    It leaves no row exactly when no school year of the frame holds four
    digits in a row. *)
Theorem x10_latest_year_once {R : Type}
    (df : DataFrame R) (school_year_col : R -> label) :
  latest_year (latest_year df school_year_col) school_year_col
  = latest_year df school_year_col
  /\ (exists y,
        Forall (fun r => year_of (school_year_col r) = Some y)
               (latest_year df school_year_col))
  /\ (latest_year df school_year_col = []
      <-> Forall (fun r => year_of (school_year_col r) = None) df).
Proof.
  pose proof (latest_year_years df school_year_col) as HY.
  remember (year_max (map (fun r => year_of (school_year_col r)) df))
    as mx eqn:Emx.
  assert (Hsame :
            exists y, Forall (fun r => year_of (school_year_col r) = Some y)
                             (latest_year df school_year_col)).
  { destruct mx as [a|].
    - exists a. eapply Forall_impl; [|exact HY]. now intros r [H _].
    - exists 0%nat. eapply Forall_impl; [|exact HY].
      intros r [H1 H2]. congruence. }
  split; [|split; [exact Hsame|]].
  - destruct Hsame as [y Hy].
    destruct (latest_year df school_year_col) as [|r l] eqn:EL;
      [reflexivity|].
    rewrite <- EL.
    assert (Hm : year_max (map (fun r => year_of (school_year_col r))
                               (latest_year df school_year_col)) = Some y).
    { apply year_max_constant.
      - rewrite EL. discriminate.
      - rewrite EL. apply Forall_map. exact Hy. }
    assert (Hmx : mx = Some y).
    { rewrite Forall_forall in HY, Hy.
      destruct (HY r (or_introl eq_refl)) as [H1 _].
      rewrite <- H1. apply Hy. now left. }
    unfold latest_year at 1. cbv zeta. rewrite Hm, <- Hmx.
    unfold latest_year. cbv zeta. rewrite <- Emx. apply filter_idem.
  - split.
    + intros E. apply Forall_forall. intros r Hr.
      destruct (year_of (school_year_col r)) as [a|] eqn:Ea; [|reflexivity].
      exfalso.
      assert (Hin : In (Some a) (map (fun r => year_of (school_year_col r)) df)).
      { rewrite <- Ea.
        now apply (in_map (fun r => year_of (school_year_col r))). }
      destruct mx as [b|].
      * symmetry in Emx. pose proof Emx as Em.
        apply year_max_some in Em. destruct Em as [Hb _].
        apply in_map_iff in Hb. destruct Hb as [r' [Hr' Hin']].
        assert (In r' (latest_year df school_year_col)).
        { unfold latest_year. cbv zeta. apply filter_In. split; [exact Hin'|].
          apply year_eqb_true. exists b. split; [exact Hr'|exact Emx]. }
        rewrite E in *. contradiction.
      * symmetry in Emx. apply (proj1 (year_max_none _) Emx a Hin).
    + intros Hall. unfold latest_year. cbv zeta.
      rewrite Forall_forall in Hall.
      destruct (filter _ df) as [|r l] eqn:EF; [reflexivity|].
      assert (Hr : In r (r :: l)) by now left.
      rewrite <- EF in Hr. apply filter_In in Hr. destruct Hr as [Hr He].
      rewrite (Hall r Hr) in He. discriminate.
Qed.

(** ** The figures at the top *)

Lemma length_append (a b : string) :
  String.length (a ++ b) = (String.length a + String.length b)%nat.
Proof. induction a as [|x a IH]; simpl; [reflexivity|now rewrite IH]. Qed.

Lemma pct_dash (x : float) : pct x = "-"%string <-> x = nan.
Proof.
  destruct x as [|q]; split; intros H; try reflexivity; try discriminate.
  exfalso. apply (f_equal String.length) in H.
  unfold pct, format_1f, fmul in H. cbn [isnan] in H.
  rewrite !length_append in H. simpl in H. lia.
Qed.

(** X11: a figure at the top of the dashboard reads "-" exactly when the
    frame has no row or the outcome column cannot be coerced; in particular
    all three figures read "-" when the filter to the most recent school
    year is applied to a frame in which no school year holds four digits in
    a row. *)
Theorem x11_headline_dash :
  (forall (R : Type) (df : DataFrame R) (col : R -> cell),
     pct (selection_rate df col) = "-"%string
     <-> (length df = 0%nat \/ coercible (map col df) = false))
  /\ (forall df : DataFrame pupil,
        Forall (fun r => year_of (school_year r) = None) df ->
        headline (latest_year df school_year)
        = ["-"%string; "-"%string; "-"%string]).
Proof.
  split.
  - intros R df col. rewrite pct_dash, selection_rate_closed.
    destruct (coercible (map col df)).
    + destruct df as [|r df]; simpl length; split; intros H; auto.
      * discriminate.
      * destruct H; discriminate.
    + split; auto.
  - intros df H.
    assert (E : latest_year df school_year = []).
    { unfold latest_year. cbv zeta. rewrite Forall_forall in H.
      destruct (filter _ df) as [|r l] eqn:EF; [reflexivity|].
      assert (Hr : In r (r :: l)) by now left.
      rewrite <- EF in Hr. apply filter_In in Hr. destruct Hr as [Hr He].
      rewrite (H r Hr) in He. discriminate. }
    rewrite E. reflexivity.
Qed.

Lemma x11_headline_dash_witness :
  headline (latest_year [{| school_year := Some "23-24"%string;
                            grade := None; gender := None;
                            race_ethnicity := None;
                            referred := Num 1; tested := Num 1;
                            qualified := Num 1; placed := Num 1 |}]
                        school_year)
  = ["-"%string; "-"%string; "-"%string].
Proof.
  apply (proj2 x11_headline_dash).
  repeat constructor.
Defined.

(** ** Numeric columns *)

Lemma to_numeric_coercible (p : string -> option Q) (s : Series) :
  coercible (to_numeric p s) = true.
Proof.
  induction s as [|c s IH]; simpl; [reflexivity|].
  rewrite IH. destruct c as [q| |t]; simpl; try reflexivity.
  destruct (p t); reflexivity.
Qed.

Lemma to_numeric_clean (p : string -> option Q) (s : Series) :
  coercible s = true -> to_numeric p s = s.
Proof.
  unfold to_numeric.
  induction s as [|c s IH]; simpl; intros H; [reflexivity|].
  apply andb_true_iff in H. destruct H as [Hc Hs]. rewrite (IH Hs).
  destruct c; try reflexivity. discriminate.
Qed.

Lemma coerce_outcomes_column (p : string -> option Q) (df : DataFrame pupil)
    (col : pupil -> cell) :
  In col outcome_columns ->
  map col (coerce_outcomes p df) = to_numeric p (map col df).
Proof.
  intros H. unfold coerce_outcomes, to_numeric. rewrite !map_map.
  apply map_ext. intros r.
  simpl in H. destruct H as [<-|[<-|[<-|[<-|[]]]]]; reflexivity.
Qed.

(** X12: a column that has gone through [to_numeric], as each of the
    columns referred, tested, qualified, placed, ell, iep and frl of the
    file does, keeps its length and can be coerced; a column that held only
    numbers and missing values comes out as it was.  Over a frame with rows
    that has such a column as outcome column the selection rate is a number,
    and no group of [group_rates] has an undefined rate. *)
Theorem x12_coerced_outcomes (numeric_of_text : string -> option Q)
    (s : Series) :
  coercible (to_numeric numeric_of_text s) = true
  /\ length (to_numeric numeric_of_text s) = length s
  /\ (coercible s = true -> to_numeric numeric_of_text s = s)
  /\ (forall (R : Type) (df : DataFrame R) (col : R -> cell)
             (group_col : R -> label),
        map col df = to_numeric numeric_of_text s ->
        (df <> [] ->
         selection_rate df col
         = Fin (Qred (total (to_numeric numeric_of_text s) / rows df)))
        /\ Forall (fun r => rate r <> nan) (group_rates df group_col col)).
Proof.
  pose proof (to_numeric_coercible numeric_of_text s) as Hc.
  split; [exact Hc|]. split; [apply length_map|].
  split; [apply to_numeric_clean|].
  intros R df col group_col E. rewrite <- E in *. split.
  - intros Hne. rewrite selection_rate_closed, Hc.
    destruct df; [congruence|reflexivity].
  - apply Forall_forall. intros r Hr.
    destruct (group_rates_rows _ _ _ _ Hr) as [Hin Er]. rewrite Er. simpl.
    rewrite selection_rate_closed, (coercible_members _ _ _ _ Hc).
    pose proof (members_nonempty _ _ _ Hin) as Hm.
    destruct (members df group_col (group r)); [congruence|discriminate].
Qed.

Lemma x12_coerced_outcomes_witness :
  selection_rate [girl Null; boy (Num 1)] qualified = Fin (1 # 2).
Proof.
  rewrite (proj1 (proj2 (proj2 (proj2
             (x12_coerced_outcomes (fun _ => None) [Text "yes"; Num 1])))
             pupil [girl Null; boy (Num 1)] qualified gender eq_refl)).
  - reflexivity.
  - discriminate.
Defined.

(** ** The funnel *)








(** ** The column mapping *)

Lemma has_column_In (cols : list string) (c : string) :
  has_column cols c = true <-> In c cols.
Proof.
  unfold has_column. rewrite existsb_exists. split.
  - intros [x [Hx E]]. apply String.eqb_eq in E. now subst.
  - intros H. exists c. split; [exact H|apply String.eqb_refl].
Qed.

Lemma rename_dict_entry (input : string -> string) (cols : list string)
    (v k : string) :
  In (v, k) (rename_dict (col_map input) cols)
  <-> In k canonical /\ v = input k /\ In v cols /\ v <> k.
Proof.
  unfold rename_dict, col_map. rewrite in_map_iff. split.
  - intros [[k0 v0] [E H]]. simpl in E. injection E as <- <-.
    apply filter_In in H. destruct H as [H1 H2]. simpl in H2.
    apply andb_true_iff in H2. destruct H2 as [Hc Hne].
    apply in_map_iff in H1. destruct H1 as [k' [E' Hk']].
    injection E' as <- <-.
    apply has_column_In in Hc. apply negb_true_iff, String.eqb_neq in Hne.
    auto.
  - intros [Hk [-> [Hc Hne]]]. exists (k, input k). split; [reflexivity|].
    apply filter_In. split.
    + apply in_map_iff. exists k. auto.
    + simpl. apply andb_true_iff. split.
      * now apply has_column_In.
      * now apply negb_true_iff, String.eqb_neq.
Qed.

Lemma dict_get_some (d : list (string * string)) (c x : string) :
  dict_get d c = Some x -> In (c, x) d.
Proof.
  induction d as [|[k v] d IH]; simpl; [discriminate|].
  destruct (dict_get d c) as [w|].
  - intros E. injection E as ->. right. now apply IH.
  - destruct (String.eqb k c) eqn:E; [|discriminate].
    apply String.eqb_eq in E. subst. intros H. injection H as ->. now left.
Qed.

Lemma dict_get_none (d : list (string * string)) (c x : string) :
  dict_get d c = None -> ~ In (c, x) d.
Proof.
  induction d as [|[k v] d IH]; simpl; [tauto|].
  destruct (dict_get d c) as [w|]; [discriminate|].
  destruct (String.eqb k c) eqn:E; [discriminate|].
  apply String.eqb_neq in E. intros _ [H|H].
  - injection H as -> ->. congruence.
  - now apply IH.
Qed.

Lemma required_canonical (k : string) : In k required -> In k canonical.
Proof.
  intros H. simpl in H.
  repeat (destruct H as [<-|H]; [simpl; tauto|]). contradiction.
Qed.

Lemma filter_none {A : Type} (p : A -> bool) (l : list A) :
  (forall x, In x l -> p x = false) -> filter p l = [].
Proof.
  induction l as [|y l IH]; simpl; intros H; [reflexivity|].
  rewrite (H y) by now left. apply IH. intros x Hx. apply H. now right.
Qed.

(** X14: the mapping step of the script.  When the text given for each
    required name is a column of the file and no two names are given the
    same text, every required name is a column after the renaming, so the
    script finds nothing missing and goes on.  When every name is given its
    own text, nothing is renamed, and the missing names are the required
    names that the file does not have. *)
Theorem x14_mapped_columns_suffice :
  (forall (input : string -> string) (cols : list string),
     (forall k, In k required -> In (input k) cols) ->
     (forall k k', In k canonical -> In k' canonical ->
                   input k = input k' -> k = k') ->
     missing (mapped_columns input cols) = [])
  /\ (forall cols : list string,
        mapped_columns (fun k => k) cols = cols
        /\ missing (mapped_columns (fun k => k) cols)
           = filter (fun c => negb (has_column cols c)) required).
Proof.
  split.
  - intros input cols Hin Hinj. unfold missing.
    assert (Hall : forall k, In k required ->
                     has_column (mapped_columns input cols) k = true).
    { intros k Hk. apply has_column_In. unfold mapped_columns, rename_columns.
      pose proof (required_canonical Hk) as Hc.
      pose proof (Hin k Hk) as Hv.
      apply in_map_iff.
      destruct (String.eqb (input k) k) eqn:E.
      - apply String.eqb_eq in E. exists k. rewrite E in Hv.
        split; [|exact Hv].
        destruct (dict_get _ k) as [x|] eqn:G; [|reflexivity].
        apply dict_get_some, rename_dict_entry in G.
        destruct G as [Hx [Ex [_ Hne]]].
        assert (x = k) by (apply Hinj; auto; congruence). congruence.
      - apply String.eqb_neq in E. exists (input k). split; [|exact Hv].
        destruct (dict_get _ (input k)) as [x|] eqn:G.
        + apply dict_get_some, rename_dict_entry in G.
          destruct G as [Hx [Ex _]]. symmetry. now apply Hinj.
        + exfalso. apply (@dict_get_none _ _ k G).
          apply rename_dict_entry. auto. }
    apply filter_none. intros k Hk. now rewrite (Hall k Hk).
  - intros cols.
    assert (E : mapped_columns (fun k => k) cols = cols).
    { unfold mapped_columns, rename_columns.
      rewrite <- (map_id cols) at 2. apply map_ext. intros c.
      destruct (dict_get _ c) as [x|] eqn:G; [|reflexivity].
      apply dict_get_some, rename_dict_entry in G.
      destruct G as [_ [Ex [_ Hne]]]. congruence. }
    split; [exact E|]. now rewrite E.
Qed.

Lemma x14_mapped_columns_suffice_witness :
  missing (mapped_columns example_input example_columns) = []
  /\ mapped_columns example_input example_columns
     = ["school_year"; "grade"; "gender"; "race_ethnicity"; "referred";
        "tested"; "qualified"; "placed"; "notes"]%string.
Proof.
  split; [|reflexivity].
  apply (proj1 x14_mapped_columns_suffice example_input example_columns).
  - intros k Hk. simpl in Hk.
    repeat (destruct Hk as [<-|Hk]; [vm_compute; tauto|]). contradiction.
  - intros k k' Hk Hk'. simpl in Hk, Hk'.
    repeat (destruct Hk as [<-|Hk];
            [repeat (destruct Hk' as [<-|Hk'];
                     [vm_compute; intros E;
                      first [reflexivity | discriminate E]|]);
             contradiction|]).
    contradiction.
Defined.
